(** * MorphStorm: the peer mesh and the signaling client

    A shallow embedding of [src/js/crypto.js]: the [MorphRTC] mesh manager
    (session table, key exchange over the data channel, message queue,
    broadcast, teardown) and the reconnection logic of [MorphSignaling].

    Conventions of the embedding.
    - The module-level variables of a JavaScript module ([peers], [handlers],
      [myKeyPair], ...) together with what the module does to the outside
      (frames handed to [dataChannel.send], signals handed to the signaling
      client, console lines, timers) form one record, threaded through every
      function by a small state monad.
    - [peers] is a JavaScript [Map]: an association list in insertion order
      with at most one entry per key.
    - Browser objects are handles (natural numbers): a peer connection, a
      data channel, a crypto key.  The [readyState] of a channel lives in the
      record, indexed by the handle, since the browser changes it.
    - What the browser and WebCrypto compute (JSON, key agreement, AES-GCM,
      session descriptions) is a parameter, the record [Env]; a rejected
      promise or a thrown exception is [None] or [false] there.
    - Each handler runs to completion: the continuation of every [await] is
      executed before any other handler starts. *)

From Stdlib Require Import String Ascii List Bool ZArith Arith Lia.
Import ListNotations.
Open Scope string_scope.

(** ** JavaScript values *)

(** A value as [JSON.parse] builds it, with [undefined] for a missing
    property. *)
#[warnings="-register-all"]
Inductive json : Type :=
| JUndefined
| JNull
| JBool (b : bool)
| JNum (z : Z)
| JStr (s : string)
| JArr (items : list json)
| JObj (props : list (string * json)).

(** [if (v)]: the falsy values are [undefined], [null], [false], [0] and
    the empty string. *)
Definition truthy (v : json) : bool :=
  match v with
  | JUndefined | JNull => false
  | JBool b => b
  | JNum z => negb (Z.eqb z 0)
  | JStr s => negb (String.eqb s EmptyString)
  | JArr _ | JObj _ => true
  end.

Fixpoint assoc (k : string) (props : list (string * json)) : json :=
  match props with
  | [] => JUndefined
  | (k', v) :: rest => if String.eqb k k' then v else assoc k rest
  end.

(** [v.k] for the property names the program reads ([type], [sdp],
    [candidate], [publicKey], [_morph]); on a primitive or an array these
    are [undefined]. *)
Definition getProp (k : string) (v : json) : json :=
  match v with
  | JObj props => assoc k props
  | _ => JUndefined
  end.

(** [v === s] for a string literal [s]. *)
Definition strictEqStr (v : json) (s : string) : bool :=
  match v with
  | JStr t => String.eqb t s
  | _ => false
  end.

(** ** Handles of browser objects *)

Definition PeerId := string.
Definition CryptoKey := nat.
Definition KeyPair := nat.
Definition RTCPeerConnection := nat.
Definition RTCDataChannel := nat.

(** [RTCDataChannel.readyState] *)
Inductive RTCDataChannelState := rs_connecting | rs_open | rs_closing | rs_closed.

Definition is_open (r : RTCDataChannelState) : bool :=
  match r with rs_open => true | _ => false end.

(** ** The external providers *)

Record Env := {
  (** [JSON.parse]; [None] when it throws *)
  JSON_parse : string -> option json;
  JSON_stringify : json -> string;
  (** [MorphCrypto.completeKeyExchange(keyPair, jwk)]: import the peer's
      public key and derive the AES-GCM key; [None] when the promise rejects *)
  completeKeyExchange : KeyPair -> json -> option CryptoKey;
  (** [MorphCrypto.encrypt(key, plaintext)]; the number is the index of the
      random IV drawn for this call; [None] when the promise rejects *)
  encrypt : CryptoKey -> nat -> string -> option string;
  (** [MorphCrypto.decrypt(key, base64)]; [None] when it throws (bad base64,
      failed authentication) *)
  decrypt : CryptoKey -> string -> option string;
  (** whether [dc.send(frame)] returns normally on an open channel *)
  channel_accepts : RTCDataChannel -> string -> bool;
  (** [createOffer] then [setLocalDescription]: the local description *)
  negotiate_offer : RTCPeerConnection -> option json;
  (** [setRemoteDescription(offer)], [createAnswer], [setLocalDescription] *)
  negotiate_answer : RTCPeerConnection -> json -> option json;
  (** [setRemoteDescription(answer)] resolves *)
  accept_answer : RTCPeerConnection -> json -> bool;
  (** [addIceCandidate(candidate)] resolves *)
  accept_candidate : RTCPeerConnection -> json -> bool
}.

(** ** The signaling client: reconnection *)

Module MorphSignaling.

Definition MAX_RECONNECT : nat := 5.
Definition RECONNECT_DELAY : Z := 3000.

(** The payload of a ['status'] event. *)
Inductive Status :=
| st_connecting
| st_connected
| st_disconnected
| st_error (error : string)
| st_failed (error : string).

Record State := {
  reconnectAttempts : nat;
  (** the timer id kept in [reconnectTimer] *)
  reconnectTimer : option nat;
  (** every [setTimeout(() => connect()..., delay)] made by
      [attemptReconnect], oldest first: (timer id, delay) *)
  timers : list (nat * Z);
  (** timers cancelled by [clearTimeout] *)
  cleared : list nat;
  (** ['status'] events emitted, oldest first *)
  statuses : list Status;
  console : list string
}.

Definition initial : State :=
  {| reconnectAttempts := 0; reconnectTimer := None; timers := [];
     cleared := []; statuses := []; console := [] |}.

Definition emit_status (st : Status) (s : State) : State :=
  {| reconnectAttempts := reconnectAttempts s; reconnectTimer := reconnectTimer s;
     timers := timers s; cleared := cleared s;
     statuses := statuses s ++ [st]; console := console s |}.

Definition console_log (line : string) (s : State) : State :=
  {| reconnectAttempts := reconnectAttempts s; reconnectTimer := reconnectTimer s;
     timers := timers s; cleared := cleared s;
     statuses := statuses s; console := console s ++ [line] |}.

Definition set_reconnectAttempts (n : nat) (s : State) : State :=
  {| reconnectAttempts := n; reconnectTimer := reconnectTimer s;
     timers := timers s; cleared := cleared s;
     statuses := statuses s; console := console s |}.

(** [reconnectTimer = setTimeout(..., delay)]: the new timer's id is the
    number of timers made so far. *)
Definition setTimeout_connect (delay : Z) (s : State) : State :=
  let id := length (timers s) in
  {| reconnectAttempts := reconnectAttempts s; reconnectTimer := Some id;
     timers := timers s ++ [(id, delay)]; cleared := cleared s;
     statuses := statuses s; console := console s |}.

Definition clearTimeout (t : option nat) (s : State) : State :=
  match t with
  | None => s
  | Some id =>
      {| reconnectAttempts := reconnectAttempts s; reconnectTimer := reconnectTimer s;
         timers := timers s; cleared := cleared s ++ [id];
         statuses := statuses s; console := console s |}
  end.

Definition attemptReconnect (s : State) : State :=
  if (MAX_RECONNECT <=? reconnectAttempts s)%nat then
    emit_status (st_failed "Max reconnection attempts reached") s
  else
    let s := set_reconnectAttempts (S (reconnectAttempts s)) s in
    let s := console_log "[SIG] Reconnecting..." s in
    setTimeout_connect RECONNECT_DELAY s.

(** [ws.onopen] *)
Definition ws_onopen (s : State) : State :=
  let s := console_log "[SIG] Connected" s in
  let s := set_reconnectAttempts 0 s in
  emit_status st_connected s.

(** [ws.onclose] *)
Definition ws_onclose (s : State) : State :=
  let s := console_log "[SIG] Disconnected" s in
  let s := emit_status st_disconnected s in
  attemptReconnect s.

(** [ws.onerror] *)
Definition ws_onerror (s : State) : State :=
  let s := console_log "[SIG] Error:" s in
  emit_status (st_error "Connection failed") s.

(** [disconnect()]; closing the socket is the browser's business, its
    [onclose] arrives as a later event. *)
Definition disconnect (s : State) : State :=
  let s := clearTimeout (reconnectTimer s) s in
  set_reconnectAttempts MAX_RECONNECT s.

(** [connect()] up to the creation of the socket, as the reconnection
    timer calls it; what the socket then reports arrives as later events. *)
Definition connect (s : State) : State :=
  let s := console_log "[SIG] Connecting..." s in
  emit_status st_connecting s.

(** What happens to the client while no connection reaches [onopen]: the
    socket closes, the socket reports an error, a reconnection timer fires
    and calls [connect]. *)
Inductive SocketEvent := ev_close | ev_error | ev_timer.

Definition socket_event (e : SocketEvent) (s : State) : State :=
  match e with
  | ev_close => ws_onclose s
  | ev_error => ws_onerror s
  | ev_timer => connect s
  end.

Definition run (evs : list SocketEvent) (s : State) : State :=
  fold_left (fun s e => socket_event e s) evs s.

Definition is_close (e : SocketEvent) : bool :=
  match e with ev_close => true | _ => false end.

(** The number of times the socket was lost. *)
Definition losses (evs : list SocketEvent) : nat := length (filter is_close evs).

Definition is_failed (st : Status) : bool :=
  match st with st_failed _ => true | _ => false end.

(** The number of permanently-failed statuses surfaced so far. *)
Definition failures (s : State) : nat :=
  length (filter is_failed (statuses s)).

(** Everything that drives the reconnection logic over the life of the
    client: what the socket reports, a connection reaching [onopen], and
    the application calling [disconnect()]. *)
Inductive ClientEvent :=
| ce_socket (e : SocketEvent)
| ce_open
| ce_disconnect.

Definition client_event (e : ClientEvent) (s : State) : State :=
  match e with
  | ce_socket e => socket_event e s
  | ce_open => ws_onopen s
  | ce_disconnect => disconnect s
  end.

Definition client_run (evs : list ClientEvent) (s : State) : State :=
  fold_left (fun s e => client_event e s) evs s.

End MorphSignaling.

(** ** The mesh manager *)

Module MorphRTC.

(** *** The session table *)

(** One value of the [peers] map: the [peerState] object. *)
Record PeerState := {
  connection : RTCPeerConnection;
  dataChannel : option RTCDataChannel;
  sharedKey : option CryptoKey;
  name : string;
  state : string;
  isInitiator : bool;
  pendingMessages : list json
}.

Definition set_dataChannel (dc : option RTCDataChannel) (p : PeerState) : PeerState :=
  {| connection := connection p; dataChannel := dc; sharedKey := sharedKey p;
     name := name p; state := state p; isInitiator := isInitiator p;
     pendingMessages := pendingMessages p |}.

Definition set_sharedKey (k : option CryptoKey) (p : PeerState) : PeerState :=
  {| connection := connection p; dataChannel := dataChannel p; sharedKey := k;
     name := name p; state := state p; isInitiator := isInitiator p;
     pendingMessages := pendingMessages p |}.

Definition set_state (st : string) (p : PeerState) : PeerState :=
  {| connection := connection p; dataChannel := dataChannel p; sharedKey := sharedKey p;
     name := name p; state := st; isInitiator := isInitiator p;
     pendingMessages := pendingMessages p |}.

Definition set_pendingMessages (q : list json) (p : PeerState) : PeerState :=
  {| connection := connection p; dataChannel := dataChannel p; sharedKey := sharedKey p;
     name := name p; state := state p; isInitiator := isInitiator p;
     pendingMessages := q |}.

(** [peer.pendingMessages.push(msg)] *)
Definition push_pending (msg : json) (p : PeerState) : PeerState :=
  set_pendingMessages (pendingMessages p ++ [msg]) p.

(** A JavaScript [Map] from peer id to session, in insertion order. *)
Definition PeerMap := list (PeerId * PeerState).

Fixpoint Map_get (k : PeerId) (m : PeerMap) : option PeerState :=
  match m with
  | [] => None
  | (k', v) :: rest => if String.eqb k k' then Some v else Map_get k rest
  end.

(** [m.set(k, v)]: an existing key keeps its place, a new one goes last. *)
Fixpoint Map_set (k : PeerId) (v : PeerState) (m : PeerMap) : PeerMap :=
  match m with
  | [] => [(k, v)]
  | (k', v') :: rest =>
      if String.eqb k k' then (k', v) :: rest else (k', v') :: Map_set k v rest
  end.

Definition Map_delete (k : PeerId) (m : PeerMap) : PeerMap :=
  filter (fun e => negb (String.eqb k (fst e))) m.

(** An assignment to a field of the session object held under [k]. *)
Fixpoint Map_update (k : PeerId) (f : PeerState -> PeerState) (m : PeerMap) : PeerMap :=
  match m with
  | [] => []
  | (k', v) :: rest =>
      if String.eqb k k' then (k', f v) :: rest else (k', v) :: Map_update k f rest
  end.

Definition Map_keys (m : PeerMap) : list PeerId := map fst m.

(** At most one entry per key, as in every [Map]. *)
Definition Map_wf (m : PeerMap) : Prop := NoDup (Map_keys m).

(** *** Events and console *)

Inductive Event :=
| peer_connected (peerId : PeerId) (name : option string)
| peer_encrypted (peerId : PeerId) (name : string)
| peer_disconnected (peerId : PeerId) (name : string)
| message (fromPeerId : PeerId) (fromName : string) (body : json).

Inductive Level := lvl_log | lvl_warn | lvl_error.

(** *** The state of the module and of its surroundings *)

Record World := {
  peers : PeerMap;
  myKeyPair : option KeyPair;
  myPublicKeyJwk : json;
  (** events passed to [emit], oldest first *)
  events : list Event;
  console : list (Level * string);
  (** [readyState] of every data channel, by handle *)
  readyStates : list RTCDataChannelState;
  (** frames accepted by [dc.send], oldest first *)
  sent : list (RTCDataChannel * string);
  (** connections on which [close()] was called *)
  closed : list RTCPeerConnection;
  (** signals handed to [MorphSignaling.sendSignal] *)
  signals : list (PeerId * json);
  (** random IVs drawn so far *)
  ivs : nat;
  (** peer connections constructed so far *)
  connections : nat
}.

Definition set_peers (m : PeerMap) (w : World) : World :=
  {| peers := m; myKeyPair := myKeyPair w; myPublicKeyJwk := myPublicKeyJwk w;
     events := events w; console := console w; readyStates := readyStates w;
     sent := sent w; closed := closed w; signals := signals w; ivs := ivs w;
     connections := connections w |}.

Definition set_keys (kp : option KeyPair) (jwk : json) (w : World) : World :=
  {| peers := peers w; myKeyPair := kp; myPublicKeyJwk := jwk;
     events := events w; console := console w; readyStates := readyStates w;
     sent := sent w; closed := closed w; signals := signals w; ivs := ivs w;
     connections := connections w |}.

Definition set_events (l : list Event) (w : World) : World :=
  {| peers := peers w; myKeyPair := myKeyPair w; myPublicKeyJwk := myPublicKeyJwk w;
     events := l; console := console w; readyStates := readyStates w;
     sent := sent w; closed := closed w; signals := signals w; ivs := ivs w;
     connections := connections w |}.

Definition set_console (l : list (Level * string)) (w : World) : World :=
  {| peers := peers w; myKeyPair := myKeyPair w; myPublicKeyJwk := myPublicKeyJwk w;
     events := events w; console := l; readyStates := readyStates w;
     sent := sent w; closed := closed w; signals := signals w; ivs := ivs w;
     connections := connections w |}.

Definition set_readyStates (l : list RTCDataChannelState) (w : World) : World :=
  {| peers := peers w; myKeyPair := myKeyPair w; myPublicKeyJwk := myPublicKeyJwk w;
     events := events w; console := console w; readyStates := l;
     sent := sent w; closed := closed w; signals := signals w; ivs := ivs w;
     connections := connections w |}.

Definition set_sent (l : list (RTCDataChannel * string)) (w : World) : World :=
  {| peers := peers w; myKeyPair := myKeyPair w; myPublicKeyJwk := myPublicKeyJwk w;
     events := events w; console := console w; readyStates := readyStates w;
     sent := l; closed := closed w; signals := signals w; ivs := ivs w;
     connections := connections w |}.

Definition set_closed (l : list RTCPeerConnection) (w : World) : World :=
  {| peers := peers w; myKeyPair := myKeyPair w; myPublicKeyJwk := myPublicKeyJwk w;
     events := events w; console := console w; readyStates := readyStates w;
     sent := sent w; closed := l; signals := signals w; ivs := ivs w;
     connections := connections w |}.

Definition set_signals (l : list (PeerId * json)) (w : World) : World :=
  {| peers := peers w; myKeyPair := myKeyPair w; myPublicKeyJwk := myPublicKeyJwk w;
     events := events w; console := console w; readyStates := readyStates w;
     sent := sent w; closed := closed w; signals := l; ivs := ivs w;
     connections := connections w |}.

Definition set_ivs (n : nat) (w : World) : World :=
  {| peers := peers w; myKeyPair := myKeyPair w; myPublicKeyJwk := myPublicKeyJwk w;
     events := events w; console := console w; readyStates := readyStates w;
     sent := sent w; closed := closed w; signals := signals w; ivs := n;
     connections := connections w |}.

Definition set_connections (n : nat) (w : World) : World :=
  {| peers := peers w; myKeyPair := myKeyPair w; myPublicKeyJwk := myPublicKeyJwk w;
     events := events w; console := console w; readyStates := readyStates w;
     sent := sent w; closed := closed w; signals := signals w; ivs := ivs w;
     connections := n |}.

(** The module as loaded: an empty table, no key pair yet. *)
Definition initial : World :=
  {| peers := []; myKeyPair := None; myPublicKeyJwk := JNull; events := [];
     console := []; readyStates := []; sent := []; closed := []; signals := [];
     ivs := 0; connections := 0 |}.

(** *** The state monad *)

Definition M (A : Type) : Type := World -> A * World.

Definition ret {A} (a : A) : M A := fun w => (a, w).

Definition bind {A B} (c : M A) (k : A -> M B) : M B :=
  fun w => let r := c w in k (fst r) (snd r).

Definition gets {A} (f : World -> A) : M A := fun w => (f w, w).

Definition modify (f : World -> World) : M unit := fun w => (tt, f w).

Declare Scope monad_scope.
Delimit Scope monad_scope with monad.
Notation "x <- c ;; k" := (bind c (fun x => k))
  (at level 61, c at next level, right associativity) : monad_scope.
Notation "c ;; k" := (bind c (fun _ => k))
  (at level 61, right associativity) : monad_scope.
Open Scope monad_scope.

(** [for (const x of l) await body(x)] *)
Fixpoint forEach {A} (l : list A) (body : A -> M unit) : M unit :=
  match l with
  | [] => ret tt
  | x :: rest => body x ;; forEach rest body
  end.

(** [for (const x of l) results.push(await body(x))] *)
Fixpoint collect {A B} (l : list A) (body : A -> M B) : M (list B) :=
  match l with
  | [] => ret []
  | x :: rest => r <- body x ;; rs <- collect rest body ;; ret (r :: rs)
  end.

(** The result of running a computation, and the world it leaves. *)
Definition result {A} (c : M A) (w : World) : A := fst (c w).
Definition exec {A} (c : M A) (w : World) : World := snd (c w).

(** *** Primitives *)

Definition peers_get (peerId : PeerId) : M (option PeerState) :=
  gets (fun w => Map_get peerId (peers w)).

Definition peers_set (peerId : PeerId) (p : PeerState) : M unit :=
  modify (fun w => set_peers (Map_set peerId p (peers w)) w).

Definition peers_delete (peerId : PeerId) : M unit :=
  modify (fun w => set_peers (Map_delete peerId (peers w)) w).

Definition peers_clear : M unit := modify (set_peers []).

(** [peer.field = value] on the session object of [peerId]. *)
Definition assign (peerId : PeerId) (f : PeerState -> PeerState) : M unit :=
  modify (fun w => set_peers (Map_update peerId f (peers w)) w).

(** [emit(type, data)]: the subscribers are outside the module; the event
    is recorded. *)
Definition emit (e : Event) : M unit :=
  modify (fun w => set_events (events w ++ [e]) w).

Definition console_write (l : Level) (line : string) : M unit :=
  modify (fun w => set_console (console w ++ [(l, line)]) w).

Definition readyState (dc : RTCDataChannel) (w : World) : RTCDataChannelState :=
  nth dc (readyStates w) rs_closed.

(** [dc.send(frame)]: [false] when it throws, which it does on a channel
    that is not open and when the transport refuses the frame. *)
Definition dataChannel_send (E : Env) (dc : RTCDataChannel) (frame : string) : M bool :=
  fun w =>
    if is_open (readyState dc w) && channel_accepts E dc frame
    then (true, set_sent (sent w ++ [(dc, frame)]) w)
    else (false, w).

(** [MorphCrypto.encrypt(key, plaintext)]: draws a fresh IV. *)
Definition MorphCrypto_encrypt (E : Env) (key : CryptoKey) (plaintext : string)
  : M (option string) :=
  fun w => (encrypt E key (ivs w) plaintext, set_ivs (S (ivs w)) w).

Definition connection_close (pc : RTCPeerConnection) : M unit :=
  modify (fun w => set_closed (closed w ++ [pc]) w).

Definition sendSignal (target : PeerId) (signal : json) : M unit :=
  modify (fun w => set_signals (signals w ++ [(target, signal)]) w).

(** [new RTCPeerConnection(config)] *)
Definition new_RTCPeerConnection : M RTCPeerConnection :=
  fun w => (connections w, set_connections (S (connections w)) w).

(** [pc.createDataChannel(...)]: a new channel, still connecting. *)
Definition createDataChannel : M RTCDataChannel :=
  fun w => (length (readyStates w),
            set_readyStates (readyStates w ++ [rs_connecting]) w).

(** *** The functions of the module *)

Section Handlers.

Variable E : Env.

(** The settlement of the promise an [async] function returns. *)
Inductive Outcome := Resolved | Rejected.

(** [init()] with the key pair and exported key [initKeyExchange] gave. *)
Definition init (keyPair : KeyPair) (publicKeyJwk : json) : M unit :=
  modify (set_keys (Some keyPair) publicKeyJwk) ;;
  console_write lvl_log "[RTC] Crypto initialized".

Definition handlePeerDisconnect (peerId : PeerId) : M unit :=
  peer <- peers_get peerId ;;
  match peer with
  | Some peer =>
      connection_close (connection peer) ;;
      peers_delete peerId ;;
      emit (peer_disconnected peerId (name peer))
  | None => ret tt
  end.

(** [!peer.dataChannel || peer.dataChannel.readyState !== 'open'] *)
Definition channel_not_open (peer : PeerState) (w : World) : bool :=
  match dataChannel peer with
  | None => true
  | Some dc => negb (is_open (readyState dc w))
  end.

Definition sendToPeer (peerId : PeerId) (messageObj : json) : M bool :=
  peer <- peers_get peerId ;;
  match peer with
  | None => ret false
  | Some peer =>
      match sharedKey peer with
      | None =>
          (* Queue message until encryption is ready *)
          assign peerId (push_pending messageObj) ;;
          ret true
      | Some key =>
          closed <- gets (channel_not_open peer) ;;
          if closed then
            console_write lvl_warn ("[RTC] Channel not open for " ++ peerId) ;;
            ret false
          else
            let plaintext := JSON_stringify E messageObj in
            encrypted <- MorphCrypto_encrypt E key plaintext ;;
            match encrypted, dataChannel peer with
            | Some encrypted, Some dc =>
                ok <- dataChannel_send E dc encrypted ;;
                if ok then ret true
                else
                  console_write lvl_error ("[RTC] Send error to " ++ peerId) ;;
                  ret false
            | _, _ =>
                console_write lvl_error ("[RTC] Send error to " ++ peerId) ;;
                ret false
            end
      end
  end.

Definition broadcast (messageObj : json) : M (list bool) :=
  ids <- gets (fun w => Map_keys (peers w)) ;;
  collect ids (fun peerId => sendToPeer peerId messageObj).

Definition disconnectPeer (peerId : PeerId) : M unit :=
  handlePeerDisconnect peerId.

Definition disconnectAll : M unit :=
  ids <- gets (fun w => Map_keys (peers w)) ;;
  forEach ids handlePeerDisconnect ;;
  peers_clear.

(** One element of the array [getPeerList()] returns. *)
Record PeerInfo := {
  id : PeerId;
  info_name : string;
  info_state : string;
  encrypted : bool
}.

Definition is_set {A} (o : option A) : bool :=
  match o with Some _ => true | None => false end.

Definition getPeerList (w : World) : list PeerInfo :=
  map (fun e => {| id := fst e; info_name := name (snd e);
                   info_state := state (snd e);
                   encrypted := is_set (sharedKey (snd e)) |}) (peers w).

Definition getPeerCount (w : World) : nat := length (peers w).

Definition isPeerConnected (peerId : PeerId) (w : World) : bool :=
  match Map_get peerId (peers w) with
  | Some peer => negb (channel_not_open peer w)
  | None => false
  end.

(** The [key-exchange] branch of [handleSignal], once [peer] was found and
    [signal.publicKey] is truthy: the body of the [try]. *)
Definition keyExchange (fromPeerId : PeerId) (peer : PeerState) (publicKey : json)
  : M unit :=
  kp <- gets myKeyPair ;;
  match match kp with
        | Some kp => completeKeyExchange E kp publicKey
        | None => None
        end with
  | Some key =>
      assign fromPeerId (set_sharedKey (Some key)) ;;
      assign fromPeerId (set_state "encrypted") ;;
      console_write lvl_log ("[RTC] Encrypted channel with " ++ name peer) ;;
      emit (peer_encrypted fromPeerId (name peer)) ;;
      (* Send any pending messages *)
      forEach (pendingMessages peer)
              (fun msg => sendToPeer fromPeerId msg ;; ret tt) ;;
      assign fromPeerId (set_pendingMessages [])
  | None =>
      console_write lvl_error "[RTC] Key exchange failed:"
  end.

Definition handleSignal (fromPeerId : PeerId) (fromPeerName : string) (signal : json)
  : M Outcome :=
  match signal with
  | JUndefined | JNull => ret Rejected  (* [signal.type] throws *)
  | _ =>
  let type := getProp "type" signal in
  if strictEqStr type "offer" then
    console_write lvl_log ("[RTC] Received offer from " ++ fromPeerName) ;;
    pc <- new_RTCPeerConnection ;;
    peers_set fromPeerId
      {| connection := pc; dataChannel := None; sharedKey := None;
         name := fromPeerName; state := "connecting"; isInitiator := false;
         pendingMessages := [] |} ;;
    match negotiate_answer E pc (getProp "sdp" signal) with
    | Some localDescription =>
        sendSignal fromPeerId
          (JObj [("type", JStr "answer"); ("sdp", localDescription)]) ;;
        ret Resolved
    | None => ret Rejected
    end
  else if strictEqStr type "answer" then
    console_write lvl_log ("[RTC] Received answer from " ++ fromPeerName) ;;
    peer <- peers_get fromPeerId ;;
    match peer with
    | Some peer =>
        if accept_answer E (connection peer) (getProp "sdp" signal)
        then ret Resolved else ret Rejected
    | None => ret Resolved
    end
  else if strictEqStr type "ice-candidate" then
    peer <- peers_get fromPeerId ;;
    match peer with
    | Some peer =>
        if truthy (getProp "candidate" signal) then
          if accept_candidate E (connection peer) (getProp "candidate" signal)
          then ret Resolved
          else console_write lvl_warn "[RTC] ICE candidate error:" ;; ret Resolved
        else ret Resolved
    | None => ret Resolved
    end
  else if strictEqStr type "key-exchange" then
    (* Peer sent their public key *)
    peer <- peers_get fromPeerId ;;
    match peer with
    | Some peer =>
        if truthy (getProp "publicKey" signal) then
          keyExchange fromPeerId peer (getProp "publicKey" signal) ;;
          ret Resolved
        else ret Resolved
    | None => ret Resolved
    end
  else ret Resolved
  end.

(** [connectToPeer(peerId, peerName)]: we are the initiator. *)
Definition connectToPeer (peerId : PeerId) (peerName : string) : M Outcome :=
  console_write lvl_log ("[RTC] Initiating connection to " ++ peerName) ;;
  pc <- new_RTCPeerConnection ;;
  dc <- createDataChannel ;;
  peers_set peerId
    {| connection := pc; dataChannel := Some dc; sharedKey := None;
       name := peerName; state := "connecting"; isInitiator := true;
       pendingMessages := [] |} ;;
  match negotiate_offer E pc with
  | Some localDescription =>
      sendSignal peerId (JObj [("type", JStr "offer"); ("sdp", localDescription)]) ;;
      ret Resolved
  | None => ret Rejected
  end.

(** [pc.onicecandidate] as installed by [setupPeerConnection] *)
Definition pc_onicecandidate (peerId : PeerId) (candidate : json) : M unit :=
  if truthy candidate then
    sendSignal peerId (JObj [("type", JStr "ice-candidate"); ("candidate", candidate)])
  else ret tt.

(** [pc.oniceconnectionstatechange], [iceState] being [pc.iceConnectionState] *)
Definition pc_oniceconnectionstatechange (peerId : PeerId) (iceState : string) : M unit :=
  console_write lvl_log ("[RTC] ICE state (" ++ peerId ++ "): " ++ iceState) ;;
  if String.eqb iceState "disconnected" || String.eqb iceState "failed"
     || String.eqb iceState "closed"
  then handlePeerDisconnect peerId
  else ret tt.

(** [pc.ondatachannel] of the answering side: the initiator's channel. *)
Definition pc_ondatachannel (fromPeerId : PeerId) (dc : RTCDataChannel) : M unit :=
  assign fromPeerId (set_dataChannel (Some dc)).

(** [dc.onopen] as installed by [setupDataChannel(peerId, dc)] *)
Definition dc_onopen (peerId : PeerId) (dc : RTCDataChannel) : M unit :=
  console_write lvl_log ("[RTC] DataChannel OPEN with " ++ peerId) ;;
  peer <- peers_get peerId ;;
  match peer with
  | Some _ => assign peerId (set_state "open")
  | None => ret tt
  end ;;
  (* Initiate key exchange: send our public key *)
  jwk <- gets myPublicKeyJwk ;;
  ok <- dataChannel_send E dc
          (JSON_stringify E (JObj [("_morph", JStr "key-exchange"); ("publicKey", jwk)])) ;;
  if ok then emit (peer_connected peerId (option_map name peer))
  else ret tt.

(** [parsed && parsed._morph === 'key-exchange'], [parsed] being [null]
    when [JSON.parse] threw. *)
Definition is_control (parsed : option json) : bool :=
  match parsed with
  | Some v => truthy v && strictEqStr (getProp "_morph" v) "key-exchange"
  | None => false
  end.

(** [dc.onmessage], [raw] being [event.data] *)
Definition dc_onmessage (peerId : PeerId) (raw : string) : M unit :=
  peer <- peers_get peerId ;;
  match peer with
  | None => ret tt
  | Some peer =>
      let parsed := JSON_parse E raw in
      if is_control parsed then
        (* Handle key exchange over data channel *)
        handleSignal peerId (name peer)
          (JObj [("type", JStr "key-exchange");
                 ("publicKey", match parsed with
                               | Some v => getProp "publicKey" v
                               | None => JUndefined
                               end)]) ;;
        ret tt
      else
        (* Regular encrypted message *)
        match sharedKey peer with
        | None =>
            console_write lvl_warn "[RTC] Message received but no shared key yet"
        | Some key =>
            match decrypt E key raw with
            | None => console_write lvl_error "[RTC] Message decode error:"
            | Some decrypted =>
                match JSON_parse E decrypted with
                | None => console_write lvl_error "[RTC] Message decode error:"
                | Some message_ => emit (message peerId (name peer) message_)
                end
            end
        end
  end.

(** [dc.onclose] *)
Definition dc_onclose (peerId : PeerId) : M unit :=
  console_write lvl_log ("[RTC] DataChannel CLOSED with " ++ peerId) ;;
  handlePeerDisconnect peerId.

(** [dc.onerror] *)
Definition dc_onerror (peerId : PeerId) : M unit :=
  console_write lvl_error ("[RTC] DataChannel error (" ++ peerId ++ "):").

(** *** Vocabulary of the properties *)

(** The three ways a teardown of [peerId] is triggered: the connection
    reports an ICE state, the channel reports its closure, the application
    calls [disconnectPeer]. *)
Inductive Teardown :=
| by_ice (iceState : string)
| by_channel_close
| by_disconnectPeer.

Definition teardown (peerId : PeerId) (t : Teardown) : M unit :=
  match t with
  | by_ice iceState => pc_oniceconnectionstatechange peerId iceState
  | by_channel_close => dc_onclose peerId
  | by_disconnectPeer => disconnectPeer peerId
  end.

(** An ICE report tears down only in one of the three terminal states. *)
Definition fires (t : Teardown) : bool :=
  match t with
  | by_ice iceState =>
      String.eqb iceState "disconnected" || String.eqb iceState "failed"
      || String.eqb iceState "closed"
  | _ => true
  end.

(** A [key-exchange] signal, as the signaling client or [dc.onmessage]
    hands it to [handleSignal]. *)
Definition is_key_exchange (signal : json) : Prop :=
  getProp "type" signal = JStr "key-exchange".



(** The session after a completed key exchange: key installed, marked
    encrypted, queue emptied. *)
Definition encrypted_session (key : CryptoKey) (peer : PeerState) : PeerState :=
  set_pendingMessages [] (set_state "encrypted" (set_sharedKey (Some key) peer)).

(** The flush loop of [handleSignal]. *)
Definition flush (peerId : PeerId) (msgs : list json) : M unit :=
  forEach msgs (fun msg => sendToPeer peerId msg ;; ret tt).




(** The world without its console. *)
Definition silent (w : World) : World := set_console [] w.

(** A computation that does not read the console: its result and what it
    does to the rest of the world are the same whatever was logged. *)
Definition console_blind {A} (c : M A) : Prop :=
  forall w, result c (silent w) = result c w
            /\ silent (exec c (silent w)) = silent (exec c w).

(** The frames the channels deliver from some moment on: (peer, data). *)
Definition deliver (frames : list (PeerId * string)) : M unit :=
  forEach frames (fun f => dc_onmessage (fst f) (snd f)).

(** *** The module as a transition system *)

(** The browser moves channel [dc], if it exists, to the state [r]. *)
Definition browser_sets_readyState (dc : RTCDataChannel) (r : RTCDataChannelState)
    (w : World) : World :=
  if Nat.ltb dc (length (readyStates w))
  then set_readyStates (firstn dc (readyStates w) ++ r :: skipn (S dc) (readyStates w)) w
  else w.

(** The initiator's channel arrives on the answering side: a channel the
    browser made, handed to [pc.ondatachannel]. *)
Definition channel_arrives (fromPeerId : PeerId) : M unit :=
  dc <- createDataChannel ;;
  pc_ondatachannel fromPeerId dc.

(** Everything that can happen to the module: a call of an exported
    function, a handler it installed on a connection or a channel being
    run, the browser changing the state of a channel. *)
Inductive Action :=
| a_init (keyPair : KeyPair) (publicKeyJwk : json)
| a_connectToPeer (peerId : PeerId) (peerName : string)
| a_handleSignal (fromPeerId : PeerId) (fromPeerName : string) (signal : json)
| a_sendToPeer (peerId : PeerId) (messageObj : json)
| a_broadcast (messageObj : json)
| a_disconnectPeer (peerId : PeerId)
| a_disconnectAll
| a_icecandidate (peerId : PeerId) (candidate : json)
| a_iceconnectionstatechange (peerId : PeerId) (iceState : string)
| a_datachannel (fromPeerId : PeerId)
| a_dc_open (peerId : PeerId) (dc : RTCDataChannel)
| a_dc_message (peerId : PeerId) (raw : string)
| a_dc_close (peerId : PeerId)
| a_dc_error (peerId : PeerId)
| a_readyState (dc : RTCDataChannel) (r : RTCDataChannelState).

Definition perform (a : Action) (w : World) : World :=
  match a with
  | a_init keyPair publicKeyJwk => exec (init keyPair publicKeyJwk) w
  | a_connectToPeer peerId peerName => exec (connectToPeer peerId peerName) w
  | a_handleSignal fromPeerId fromPeerName signal =>
      exec (handleSignal fromPeerId fromPeerName signal) w
  | a_sendToPeer peerId messageObj => exec (sendToPeer peerId messageObj) w
  | a_broadcast messageObj => exec (broadcast messageObj) w
  | a_disconnectPeer peerId => exec (disconnectPeer peerId) w
  | a_disconnectAll => exec disconnectAll w
  | a_icecandidate peerId candidate => exec (pc_onicecandidate peerId candidate) w
  | a_iceconnectionstatechange peerId iceState =>
      exec (pc_oniceconnectionstatechange peerId iceState) w
  | a_datachannel fromPeerId => exec (channel_arrives fromPeerId) w
  | a_dc_open peerId dc => exec (dc_onopen peerId dc) w
  | a_dc_message peerId raw => exec (dc_onmessage peerId raw) w
  | a_dc_close peerId => exec (dc_onclose peerId) w
  | a_dc_error peerId => exec (dc_onerror peerId) w
  | a_readyState dc r => browser_sets_readyState dc r w
  end.

(** The world after a history of actions, oldest first. *)
Definition perform_all (history : list Action) (w : World) : World :=
  fold_left (fun w a => perform a w) history w.

(** A computation that keeps the property [I] of the world. *)
Definition preserves (I : World -> Prop) {A} (c : M A) : Prop :=
  forall w, I w -> I (exec c w).

(** A computation that leaves the table alone; one that also leaves the
    closed connections and the count of connections alone; one that leaves
    the table and the wire alone. *)
Definition keeps_peers {A} (c : M A) : Prop := forall w, peers (exec c w) = peers w.

Definition keeps_connections {A} (c : M A) : Prop :=
  forall w, peers (exec c w) = peers w /\ closed (exec c w) = closed w
            /\ connections (exec c w) = connections w.

Definition keeps_wire {A} (c : M A) : Prop :=
  forall w, peers (exec c w) = peers w /\ sent (exec c w) = sent w.

(** What holds of every session between two handlers: the state is one
    of the three the module writes, [encrypted] goes with a key, and a
    key goes with an empty queue. *)
Definition session_ok (p : PeerState) : Prop :=
  (state p = "connecting" \/ state p = "open" \/ state p = "encrypted")
  /\ (state p = "encrypted" -> sharedKey p <> None)
  /\ (sharedKey p <> None -> pendingMessages p = []).

Definition table_ok (w : World) : Prop :=
  Map_wf (peers w)
  /\ forall peerId p, Map_get peerId (peers w) = Some p -> session_ok p.

(** The connections of the sessions in the table. *)
Definition live_connections (w : World) : list RTCPeerConnection :=
  map (fun e => connection (snd e)) (peers w).

(** No connection was closed twice, no two sessions share a connection,
    no session holds a closed connection, and every connection in use or
    closed was made by the module. *)
Definition connections_ok (w : World) : Prop :=
  NoDup (closed w)
  /\ NoDup (live_connections w)
  /\ (forall pc, In pc (live_connections w) -> (pc < connections w)%nat /\ ~ In pc (closed w))
  /\ (forall pc, In pc (closed w) -> (pc < connections w)%nat).

(** A key that came out of [completeKeyExchange]. *)
Definition derived (key : CryptoKey) : Prop :=
  exists kp publicKey, completeKeyExchange E kp publicKey = Some key.

(** The only frames the module hands to a channel: its own key-exchange
    control frame, and the ciphertext of a serialized message under a
    derived key. *)
Definition legit_frame (frame : string) : Prop :=
  (exists jwk,
      frame = JSON_stringify E (JObj [("_morph", JStr "key-exchange"); ("publicKey", jwk)]))
  \/ (exists key n msg,
         derived key /\ encrypt E key n (JSON_stringify E msg) = Some frame).

Definition wire_ok (w : World) : Prop :=
  (forall peerId p key,
      Map_get peerId (peers w) = Some p -> sharedKey p = Some key -> derived key)
  /\ Forall (fun f => legit_frame (snd f)) (sent w).

End Handlers.

End MorphRTC.

(** ** A concrete environment and concrete runs *)

Module Demo.

Import MorphRTC.

(** A public key in JWK form; [x] stands for its coordinates. *)
Definition jwk (x : Z) : json := JObj [("kty", JStr "EC"); ("x", JNum x)].

Definition control (x : Z) : json :=
  JObj [("_morph", JStr "key-exchange"); ("publicKey", jwk x)].

Definition chat (text : string) : json :=
  JObj [("text", JStr text); ("type", JStr "chat")].

(** A toy environment: the frames [kx1] and [kx2] parse as control frames,
    a text after an opening brace as a chat message; key agreement adds the
    peer's coordinate to our key pair; a ciphertext is the plaintext behind
    a letter naming the key; the transport refuses frames over 32
    characters. *)
Definition env : Env := {|
  JSON_parse := fun s =>
    if String.eqb s "kx1" then Some (control 1)
    else if String.eqb s "kx2" then Some (control 2)
    else match s with
         | String "{"%char text => Some (chat text)
         | _ => None
         end;
  JSON_stringify := fun v =>
    match getProp "text" v, getProp "x" (getProp "publicKey" v) with
    | JStr text, _ => String "{"%char text
    | _, JNum 1 => "kx1"
    | _, JNum 2 => "kx2"
    | _, _ => "null"
    end;
  completeKeyExchange := fun kp pub =>
    match getProp "x" pub with
    | JNum x => Some (kp + Z.to_nat x)
    | _ => None
    end;
  encrypt := fun key n plaintext =>
    Some (String (Ascii.ascii_of_nat (65 + key)) plaintext);
  decrypt := fun key frame =>
    match frame with
    | String c plaintext =>
        if Ascii.eqb c (Ascii.ascii_of_nat (65 + key)) then Some plaintext else None
    | EmptyString => None
    end;
  channel_accepts := fun dc frame => Nat.leb (String.length frame) 32;
  negotiate_offer := fun pc => Some (JStr "offer-sdp");
  negotiate_answer := fun pc offer => Some (JStr "answer-sdp");
  accept_answer := fun pc answer => true;
  accept_candidate := fun pc candidate => true
|}.

Definition key_exchange (x : Z) : json :=
  JObj [("type", JStr "key-exchange"); ("publicKey", jwk x)].

(** The browser moves channel [dc] to [r]. *)
Definition channel_becomes (dc : RTCDataChannel) (r : RTCDataChannelState) (w : World)
  : World :=
  set_readyStates
    (firstn dc (readyStates w) ++ r :: skipn (S dc) (readyStates w)) w.

(** Started, key pair 2. *)
Definition w_init : World := exec (init 2 (jwk 2)) initial.

(** We called bob: the session is connecting, without channel state or key. *)
Definition w_connecting : World := exec (connectToPeer env "bob" "Bob") w_init.

(** Two messages submitted before the channel opened. *)
Definition w_queued : World :=
  exec (sendToPeer env "bob" (chat "one") ;; sendToPeer env "bob" (chat "two"))
       w_connecting.

(** The channel to bob opened. *)
Definition w_open : World :=
  exec (dc_onopen env "bob" 0) (channel_becomes 0 rs_open w_queued).

(** Bob's control frame arrived on the channel. *)
Definition w_encrypted : World := exec (dc_onmessage env "bob" "kx1") w_open.

(** The channel to bob is closing; its [onclose] has not fired yet. *)
Definition w_closing : World := channel_becomes 0 rs_closing w_encrypted.


(** Bob encrypted, dave connecting with nothing queued. *)
Definition w_two : World := exec (connectToPeer env "dave" "Dave") w_encrypted.


(** The history that leads to [w_encrypted], then a message to bob and
    the arrival of dave. *)
Definition history : list Action :=
  [a_init 2 (jwk 2); a_connectToPeer "bob" "Bob";
   a_sendToPeer "bob" (chat "one"); a_sendToPeer "bob" (chat "two");
   a_readyState 0 rs_open; a_dc_open "bob" 0; a_dc_message "bob" "kx1";
   a_broadcast (chat "three"); a_connectToPeer "dave" "Dave"].

(** The same, followed by the loss of bob and an offer from carol. *)
Definition long_history : list Action :=
  history ++ [a_sendToPeer "dave" (chat "four"); a_dc_close "bob"; a_disconnectPeer "bob";
              a_handleSignal "carol" "Carol"
                (JObj [("type", JStr "offer"); ("sdp", JStr "offer-sdp")])].

End Demo.

(** ** Vocabulary of the further properties *)

Module MeshVocabulary.

Import MorphRTC.

(** The session [connectToPeer] makes. *)
Definition offered_session (w : World) (peerName : string) : PeerState :=
  {| connection := connections w; dataChannel := Some (length (readyStates w));
     sharedKey := None; name := peerName; state := "connecting"; isInitiator := true;
     pendingMessages := [] |}.

(** The session [handleSignal] makes on an offer. *)
Definition answered_session (w : World) (peerName : string) : PeerState :=
  {| connection := connections w; dataChannel := None;
     sharedKey := None; name := peerName; state := "connecting"; isInitiator := false;
     pendingMessages := [] |}.


(** The key-exchange control frame that carries the public key [jwk]. *)
Definition control_frame (E : Env) (jwk : json) : string :=
  JSON_stringify E (JObj [("_morph", JStr "key-exchange"); ("publicKey", jwk)]).

(** One side of the handshake: its channel opens, then the control frame
    of the other side arrives. *)
Definition handshake (E : Env) (peerId : PeerId) (dc : RTCDataChannel) (theirs : string)
  : M unit :=
  dc_onopen E peerId dc ;; dc_onmessage E peerId theirs.

End MeshVocabulary.

(** ** Further concrete runs *)

Module Scenes.

Import MorphRTC.

(** Bob encrypted; dave, still connecting, has one message queued. *)
Definition w_queued_dave : World :=
  exec (sendToPeer Demo.env "dave" (Demo.chat "four")) Demo.w_two.


(** Bob's side before any channel opened. *)
Definition w_bob_waiting : World :=
  perform_all Demo.env
    [a_init 1 (Demo.jwk 1);
     a_handleSignal "alice" "Alice" (JObj [("type", JStr "offer"); ("sdp", JStr "offer-sdp")]);
     a_datachannel "alice"; a_readyState 0 rs_open]
    initial.

(** Alice's side before her channel to bob reported open: two messages
    wait in the queue. *)
Definition w_alice_waiting : World := Demo.channel_becomes 0 rs_open Demo.w_queued.

End Scenes.
(** ** MorphCrypto: the framing of encrypted messages *)

Module MorphCrypto.

Definition IV_LENGTH : nat := 12.

(** What the browser provides to [encrypt] and [decrypt]: the random
    source ([random draw i] is byte [i] of the [draw]-th call of
    [crypto.getRandomValues]), the UTF-8 coders, AES-GCM of
    [crypto.subtle] ([None] when the promise rejects) and base64 ([atob]
    gives [None] when it throws). *)
Record Platform := {
  random : nat -> nat -> Byte.byte;
  TextEncoder_encode : string -> list Byte.byte;
  TextDecoder_decode : list Byte.byte -> string;
  subtle_encrypt : CryptoKey -> list Byte.byte -> list Byte.byte -> option (list Byte.byte);
  subtle_decrypt : CryptoKey -> list Byte.byte -> list Byte.byte -> option (list Byte.byte);
  btoa : string -> string;
  atob : string -> option string
}.

(** [crypto.getRandomValues(new Uint8Array(len))]. *)
Definition getRandomValues (P : Platform) (draw len : nat) : list Byte.byte :=
  map (random P draw) (seq 0 len).

(** [encrypt(sharedKey, plaintext)]; [draw] counts the calls of the random
    source. [String.fromCharCode(...combined)] is the string whose
    characters have the bytes of [combined] as codes. *)
Definition encrypt (P : Platform) (sharedKey : CryptoKey) (draw : nat) (plaintext : string)
  : option string :=
  let iv := getRandomValues P draw IV_LENGTH in
  let encoded := TextEncoder_encode P plaintext in
  match subtle_encrypt P sharedKey iv encoded with
  | Some ciphertext =>
      let combined := (iv ++ ciphertext)%list in
      Some (btoa P (string_of_list_byte combined))
  | None => None
  end.

(** [decrypt(sharedKey, encryptedBase64)]. *)
Definition decrypt (P : Platform) (sharedKey : CryptoKey) (encryptedBase64 : string)
  : option string :=
  match atob P encryptedBase64 with
  | Some binary =>
      let combined := list_byte_of_string binary in
      let iv := firstn IV_LENGTH combined in
      let ciphertext := skipn IV_LENGTH combined in
      match subtle_decrypt P sharedKey iv ciphertext with
      | Some decrypted => Some (TextDecoder_decode P decrypted)
      | None => None
      end
  | None => None
  end.

(** What the properties ask of the browser: base64 decodes what it
    encoded, and AES-GCM decrypts, under the same key and IV, what it
    encrypted. *)
Definition base64_round_trip (P : Platform) : Prop :=
  forall s, atob P (btoa P s) = Some s.

Definition aes_gcm_correct (P : Platform) : Prop :=
  forall key iv plain cipher,
    subtle_encrypt P key iv plain = Some cipher ->
    subtle_decrypt P key iv cipher = Some plain.

(** A toy platform: draw [0] gives zero bytes and every other draw bytes
    of value one, the coders keep the bytes of the text, the cipher
    reverses its input, base64 is the identity. *)
Definition toy : Platform := {|
  random := fun draw i => match draw with 0 => Byte.x00 | _ => Byte.x01 end;
  TextEncoder_encode := list_byte_of_string;
  TextDecoder_decode := string_of_list_byte;
  subtle_encrypt := fun key iv plain => Some (rev plain);
  subtle_decrypt := fun key iv cipher => Some (rev cipher);
  btoa := fun s => s;
  atob := fun s => Some s
|}.

End MorphCrypto.

(** ** The event bus of [MorphSignaling] and [MorphRTC]

    Both modules keep [handlers], a [Map] from event type to the array of
    callbacks, with the same [on] and [emit]. A callback is a handle; what
    [emit] does is the list of calls it makes, in order. Callbacks that
    subscribe further callbacks while [emit] runs are outside this model. *)

Module EventBus.

Definition Callback := nat.
Definition Handlers := list (string * list Callback).

Fixpoint get (type : string) (handlers : Handlers) : option (list Callback) :=
  match handlers with
  | nil => None
  | (k, cbs) :: rest => if String.eqb k type then Some cbs else get type rest
  end.

Definition has (type : string) (handlers : Handlers) : bool :=
  match get type handlers with Some _ => true | None => false end.

(** [Map.prototype.set]: an existing key keeps its place. *)
Fixpoint set (type : string) (cbs : list Callback) (handlers : Handlers) : Handlers :=
  match handlers with
  | nil => (type, cbs) :: nil
  | (k, old) :: rest =>
      if String.eqb k type then (k, cbs) :: rest else (k, old) :: set type cbs rest
  end.

(** [on(type, callback)]: the array is made on the first subscription and
    the callback pushed at its end. *)
Definition on (type : string) (callback : Callback) (handlers : Handlers) : Handlers :=
  let handlers := if has type handlers then handlers else set type nil handlers in
  match get type handlers with
  | Some cbs => set type (cbs ++ callback :: nil)%list handlers
  | None => handlers
  end.

(** [handlers.get(type) || []]. *)
Definition callbacks (type : string) (handlers : Handlers) : list Callback :=
  match get type handlers with Some cbs => cbs | None => nil end.

(** [emit(type, data)]: the calls made, in order. *)
Definition emit (type : string) (data : json) (handlers : Handlers)
  : list (Callback * json) :=
  let cbs := callbacks type handlers in
  map (fun cb => (cb, data)) cbs.

(** A series of subscriptions, the first of the list first. *)
Definition subscribe (subscriptions : list (string * Callback)) (handlers : Handlers)
  : Handlers :=
  fold_left (fun h s => on (fst s) (snd s) h) subscriptions handlers.

(** The callbacks subscribed to [type], in the order of subscription. *)
Definition subscribers (type : string) (subscriptions : list (string * Callback))
  : list Callback :=
  map snd (filter (fun s => String.eqb (fst s) type) subscriptions).

End EventBus.

(** ** MorphSignaling: messages to and from the server

    The socket, the peer id, the subscriptions, the calls [emit] made, the
    frames handed to [ws.send] and the console lines. *)

Module SignalingMessages.

Inductive WebSocketState := CONNECTING | OPEN | CLOSING | CLOSED.

Inductive Line :=
| my_peer_id (peerId : json)
| cannot_send.

Record State := {
  ws : option WebSocketState;
  myPeerId : json;
  handlers : EventBus.Handlers;
  calls : list (EventBus.Callback * json);
  outbox : list string;
  console : list Line
}.

(** The module as loaded: no socket, [myPeerId] null. *)
Definition initial : State :=
  {| ws := None; myPeerId := JNull; handlers := nil; calls := nil; outbox := nil;
     console := nil |}.

Definition on (type : string) (callback : EventBus.Callback) (s : State) : State :=
  {| ws := ws s; myPeerId := myPeerId s;
     handlers := EventBus.on type callback (handlers s);
     calls := calls s; outbox := outbox s; console := console s |}.

Definition emit (type : string) (data : json) (s : State) : State :=
  {| ws := ws s; myPeerId := myPeerId s; handlers := handlers s;
     calls := (calls s ++ EventBus.emit type data (handlers s))%list;
     outbox := outbox s; console := console s |}.

Definition console_write (line : Line) (s : State) : State :=
  {| ws := ws s; myPeerId := myPeerId s; handlers := handlers s; calls := calls s;
     outbox := outbox s; console := (console s ++ line :: nil)%list |}.

(** [ws.onmessage]. Data that does not parse is dropped. [null] parses,
    and reading its [type] throws: the handler ends there. A [type] that
    is not a string is no key of [handlers]. *)
Definition ws_onmessage (E : Env) (data : string) (s : State) : State :=
  match JSON_parse E data with
  | None => s
  | Some JNull => s
  | Some msg =>
      if strictEqStr (getProp "type" msg) "welcome" then
        let s := {| ws := ws s; myPeerId := getProp "peerId" msg; handlers := handlers s;
                    calls := calls s; outbox := outbox s; console := console s |} in
        let s := console_write (my_peer_id (myPeerId s)) s in
        emit "ready" (JObj (("peerId", myPeerId s) :: nil)) s
      else
        match getProp "type" msg with
        | JStr type => emit type msg s
        | _ => s
        end
  end.

(** [send(msg)]. *)
Definition send (E : Env) (msg : json) (s : State) : State :=
  match ws s with
  | Some OPEN =>
      {| ws := ws s; myPeerId := myPeerId s; handlers := handlers s; calls := calls s;
         outbox := (outbox s ++ JSON_stringify E msg :: nil)%list; console := console s |}
  | _ => console_write cannot_send s
  end.

(** [createRoom(name, roomName, roomType = 'group')]. *)
Definition createRoom (E : Env) (name roomName roomType : json) : State -> State :=
  let roomType := match roomType with JUndefined => JStr "group" | _ => roomType end in
  send E (JObj (("type", JStr "create-room") :: ("name", name) :: ("roomName", roomName)
                :: ("roomType", roomType) :: nil)).

Definition joinRoom (E : Env) (name pin : json) : State -> State :=
  send E (JObj (("type", JStr "join-room") :: ("name", name) :: ("pin", pin) :: nil)).

Definition leaveRoom (E : Env) : State -> State :=
  send E (JObj (("type", JStr "leave-room") :: nil)).

Definition sendSignal (E : Env) (targetPeerId signal : json) : State -> State :=
  send E (JObj (("type", JStr "signal") :: ("targetPeerId", targetPeerId)
                :: ("signal", signal) :: nil)).

Definition getPeerId (s : State) : json := myPeerId s.

(** What the application asks of the client. *)
Inductive Request :=
| r_createRoom (name roomName roomType : json)
| r_joinRoom (name pin : json)
| r_leaveRoom
| r_sendSignal (targetPeerId signal : json)
| r_send (msg : json).

Definition request (E : Env) (r : Request) : State -> State :=
  match r with
  | r_createRoom name roomName roomType => createRoom E name roomName roomType
  | r_joinRoom name pin => joinRoom E name pin
  | r_leaveRoom => leaveRoom E
  | r_sendSignal targetPeerId signal => sendSignal E targetPeerId signal
  | r_send msg => send E msg
  end.

Definition requests (E : Env) (rs : list Request) (s : State) : State :=
  fold_left (fun s r => request E r s) rs s.

(** The state after a series of subscriptions on the module as loaded. *)
Definition subscribed (subscriptions : list (string * EventBus.Callback)) : State :=
  fold_left (fun s sub => on (fst sub) (snd sub) s) subscriptions initial.

End SignalingMessages.

(** * Properties *)

Open Scope list_scope.

(** ** Reconnection of the signaling client *)

Module SignalingFacts.

Import MorphSignaling.

Lemma attemptReconnect_exhausted s :
  MAX_RECONNECT <= reconnectAttempts s ->
  attemptReconnect s = emit_status (st_failed "Max reconnection attempts reached") s.
Proof.
  intros H. unfold attemptReconnect.
  destruct (Nat.leb_spec MAX_RECONNECT (reconnectAttempts s)); [reflexivity | lia].
Qed.

Lemma attemptReconnect_below s :
  reconnectAttempts s < MAX_RECONNECT ->
  reconnectAttempts (attemptReconnect s) = S (reconnectAttempts s)
  /\ timers (attemptReconnect s) = timers s ++ [(length (timers s), RECONNECT_DELAY)]
  /\ statuses (attemptReconnect s) = statuses s.
Proof.
  intros H. unfold attemptReconnect.
  destruct (Nat.leb_spec MAX_RECONNECT (reconnectAttempts s)); [lia | ].
  repeat split.
Qed.

Lemma failures_emit st s :
  failures (emit_status st s) = failures s + (if is_failed st then 1 else 0).
Proof.
  unfold failures. cbn. rewrite filter_app, length_app. cbn.
  destruct (is_failed st); reflexivity.
Qed.

(** One loss of the socket below the bound: one more attempt, one more
    timer at the fixed delay, no failure surfaced. *)
Lemma ws_onclose_below s :
  reconnectAttempts s < MAX_RECONNECT ->
  reconnectAttempts (ws_onclose s) = S (reconnectAttempts s)
  /\ timers (ws_onclose s) = timers s ++ [(length (timers s), RECONNECT_DELAY)]
  /\ failures (ws_onclose s) = failures s.
Proof.
  intros H. unfold ws_onclose.
  set (s1 := emit_status st_disconnected (console_log "[SIG] Disconnected" s)).
  assert (H1 : reconnectAttempts s1 < MAX_RECONNECT) by exact H.
  destruct (attemptReconnect_below s1 H1) as (Ha & Ht & Hs).
  repeat split; [exact Ha | exact Ht | ].
  unfold failures. rewrite Hs. unfold s1. cbn.
  rewrite filter_app, length_app. cbn. lia.
Qed.

(** One loss of the socket at the bound: the failure is surfaced and
    nothing else changes but the log. *)
Lemma ws_onclose_exhausted s :
  MAX_RECONNECT <= reconnectAttempts s ->
  reconnectAttempts (ws_onclose s) = reconnectAttempts s
  /\ timers (ws_onclose s) = timers s
  /\ failures (ws_onclose s) = S (failures s)
  /\ statuses (ws_onclose s)
     = statuses s ++ [st_disconnected; st_failed "Max reconnection attempts reached"].
Proof.
  intros H. unfold ws_onclose.
  set (s1 := emit_status st_disconnected (console_log "[SIG] Disconnected" s)).
  assert (H1 : MAX_RECONNECT <= reconnectAttempts s1) by exact H.
  rewrite (attemptReconnect_exhausted s1 H1).
  repeat split.
  - rewrite failures_emit. unfold s1. rewrite failures_emit. cbn. unfold failures. cbn. lia.
  - cbn. rewrite <- app_assoc. reflexivity.
Qed.

Lemma socket_event_exhausted e s :
  MAX_RECONNECT <= reconnectAttempts s ->
  reconnectAttempts (socket_event e s) = reconnectAttempts s
  /\ timers (socket_event e s) = timers s.
Proof.
  intros H. destruct e; cbn [socket_event].
  - destruct (ws_onclose_exhausted s H) as (Ha & Ht & _). split; assumption.
  - split; reflexivity.
  - split; reflexivity.
Qed.

Lemma run_cons e evs s : run (e :: evs) s = run evs (socket_event e s).
Proof. reflexivity. Qed.

Lemma run_exhausted evs : forall s,
  MAX_RECONNECT <= reconnectAttempts s ->
  reconnectAttempts (run evs s) = reconnectAttempts s
  /\ timers (run evs s) = timers s.
Proof.
  induction evs as [| e evs IH]; intros s H.
  - split; reflexivity.
  - rewrite run_cons.
    destruct (socket_event_exhausted e s H) as (Ha & Ht).
    destruct (IH (socket_event e s)) as (Ha' & Ht'); [lia | ].
    rewrite Ha', Ht', Ha, Ht. split; reflexivity.
Qed.

(** An error report or a timer that fires leaves the counter, the timers
    and the failures as they are. *)
Lemma socket_event_quiet e s :
  is_close e = false ->
  reconnectAttempts (socket_event e s) = reconnectAttempts s
  /\ timers (socket_event e s) = timers s
  /\ failures (socket_event e s) = failures s.
Proof.
  destruct e; cbn [is_close socket_event]; [discriminate | | ]; intros _.
  - unfold ws_onerror. repeat split. rewrite failures_emit. cbn. unfold failures. cbn. lia.
  - unfold connect. repeat split. rewrite failures_emit. cbn. unfold failures. cbn. lia.
Qed.

(** Any run of events without [onopen], counted from any number of
    attempts already made: only the losses of the socket count. *)
Lemma run_from evs : forall s,
  reconnectAttempts s <= MAX_RECONNECT ->
  reconnectAttempts (run evs s) = Nat.min (reconnectAttempts s + losses evs) MAX_RECONNECT
  /\ (exists added,
        timers (run evs s) = timers s ++ added
        /\ length added = Nat.min (losses evs) (MAX_RECONNECT - reconnectAttempts s)
        /\ Forall (fun t => snd t = RECONNECT_DELAY) added)
  /\ failures (run evs s)
     = failures s + (losses evs - (MAX_RECONNECT - reconnectAttempts s)).
Proof.
  induction evs as [| e evs IH]; intros s H.
  - cbn. repeat split; try lia. exists []. rewrite app_nil_r. repeat split; constructor.
  - rewrite run_cons. unfold losses. cbn [filter].
    destruct (is_close e) eqn:He; cbn [length]; fold (losses evs).
    + destruct e; try discriminate. cbn [socket_event].
      destruct (Nat.eq_dec (reconnectAttempts s) MAX_RECONNECT) as [Heq | Hne].
      * destruct (ws_onclose_exhausted s) as (Ha & Ht & Hf & _); [lia | ].
        destruct (IH (ws_onclose s)) as (Ha' & (added & Ht' & Hl & Hd) & Hf'); [lia | ].
        rewrite Ha', Hf', Ha, Hf. repeat split; try lia.
        exists added. rewrite Ht', Ht, Hl, Ha. repeat split; [lia | exact Hd].
      * destruct (ws_onclose_below s) as (Ha & Ht & Hf); [lia | ].
        destruct (IH (ws_onclose s)) as (Ha' & (added & Ht' & Hl & Hd) & Hf'); [lia | ].
        rewrite Ha', Hf', Ha, Hf. repeat split; try lia.
        exists ((length (timers s), RECONNECT_DELAY) :: added).
        rewrite Ht', Ht, <- app_assoc. cbn [app length]. rewrite Hl, Ha.
        repeat split; [lia | constructor; [reflexivity | exact Hd]].
    + destruct (socket_event_quiet e s He) as (Ha & Ht & Hf).
      destruct (IH (socket_event e s)) as (Ha' & (added & Ht' & Hl & Hd) & Hf'); [lia | ].
      rewrite Ha', Hf', Ha, Hf. repeat split; try lia.
      exists added. rewrite Ht', Ht, Hl, Ha. repeat split; try lia. exact Hd.
Qed.

(** C7. Start from a connected client (no attempt counted) and let the
    socket be lost again and again, no connection in between reaching
    [onopen]. Whatever the events (closes, errors, timers firing), the
    reconnections scheduled are as many as the losses but at most five,
    each at the fixed delay [RECONNECT_DELAY]; every loss beyond the fifth
    surfaces the permanently-failed status instead; and once five losses
    were counted, the next loss surfaces that status and no event ever
    schedules another reconnection. *)
Theorem reconnection_is_bounded (s : State) (evs later : list SocketEvent) :
  reconnectAttempts s = 0 ->
  MAX_RECONNECT = 5
  /\ (exists added,
        timers (run evs s) = timers s ++ added
        /\ length added = Nat.min (losses evs) MAX_RECONNECT
        /\ Forall (fun t => snd t = RECONNECT_DELAY) added)
  /\ failures (run evs s) = failures s + (losses evs - MAX_RECONNECT)
  /\ (MAX_RECONNECT <= losses evs ->
      reconnectAttempts (run evs s) = MAX_RECONNECT
      /\ statuses (ws_onclose (run evs s))
         = statuses (run evs s)
           ++ [st_disconnected; st_failed "Max reconnection attempts reached"]
      /\ timers (run later (run evs s)) = timers (run evs s)).
Proof.
  intros H0.
  destruct (run_from evs s) as (Ha & (added & Ht & Hl & Hd) & Hf); [lia | ].
  rewrite H0, Nat.sub_0_r in *. cbn [Nat.add] in Ha.
  split; [reflexivity | ].
  split; [exists added; repeat split; assumption | ].
  split; [exact Hf | ].
  intros Hn.
  assert (Hmax : reconnectAttempts (run evs s) = MAX_RECONNECT) by lia.
  split; [exact Hmax | ].
  split.
  - apply ws_onclose_exhausted. lia.
  - apply run_exhausted. lia.
Qed.

Lemma reconnection_is_bounded_witness :
  reconnectAttempts initial = 0
  /\ length (timers (run [ev_close; ev_timer; ev_error; ev_close; ev_timer; ev_close;
                          ev_timer; ev_close; ev_timer; ev_close; ev_timer; ev_error;
                          ev_close] initial)) = 5
  /\ failures (run [ev_close; ev_timer; ev_error; ev_close; ev_timer; ev_close;
                    ev_timer; ev_close; ev_timer; ev_close; ev_timer; ev_error;
                    ev_close] initial) = 1.
Proof.
  split; [reflexivity | ].
  destruct (reconnection_is_bounded initial
              [ev_close; ev_timer; ev_error; ev_close; ev_timer; ev_close;
               ev_timer; ev_close; ev_timer; ev_close; ev_timer; ev_error; ev_close]
              [ev_close] eq_refl)
    as (_ & (added & Ht & Hl & _) & Hf & _).
  split; [rewrite Ht, length_app, Hl; reflexivity | rewrite Hf; reflexivity].
Defined.

End SignalingFacts.

(** ** The session table as a map *)

Module MapFacts.

Import MorphRTC.

Lemma Map_get_delete k m : Map_get k (Map_delete k m) = None.
Proof.
  unfold Map_delete. induction m as [| [k' v] m IH]; cbn; [reflexivity | ].
  destruct (String.eqb k k') eqn:Hk; cbn; [exact IH | ].
  rewrite Hk. exact IH.
Qed.

Lemma Map_delete_absent k m : Map_get k m = None -> Map_delete k m = m.
Proof.
  unfold Map_delete. induction m as [| [k' v] m IH]; cbn; [reflexivity | ].
  destruct (String.eqb k k') eqn:Hk; cbn; [discriminate | ].
  intros H. rewrite (IH H). reflexivity.
Qed.

Lemma Map_get_delete_other k k' m :
  k <> k' -> Map_get k' (Map_delete k m) = Map_get k' m.
Proof.
  intros Hne. unfold Map_delete. induction m as [| [k0 v] m IH]; cbn; [reflexivity | ].
  destruct (String.eqb k k0) eqn:Hk; cbn.
  - apply String.eqb_eq in Hk. subst k0.
    destruct (String.eqb k' k) eqn:Hk'; [ | exact IH].
    apply String.eqb_eq in Hk'. congruence.
  - rewrite IH. reflexivity.
Qed.


Lemma Map_get_update k f m :
  Map_get k (Map_update k f m) = option_map f (Map_get k m).
Proof.
  induction m as [| [k' v] m IH]; cbn; [reflexivity | ].
  destruct (String.eqb k k') eqn:Hk; cbn; rewrite Hk; [reflexivity | exact IH].
Qed.

Lemma Map_get_update_other k k' f m :
  k <> k' -> Map_get k' (Map_update k f m) = Map_get k' m.
Proof.
  intros Hne. induction m as [| [k0 v] m IH]; cbn; [reflexivity | ].
  destruct (String.eqb k k0) eqn:Hk; cbn.
  - apply String.eqb_eq in Hk. subst k0.
    destruct (String.eqb k' k) eqn:Hk'; [ | reflexivity].
    apply String.eqb_eq in Hk'. congruence.
  - rewrite IH. reflexivity.
Qed.

Lemma Map_keys_update k f m : Map_keys (Map_update k f m) = Map_keys m.
Proof.
  induction m as [| [k' v] m IH]; cbn; [reflexivity | ].
  destruct (String.eqb k k'); cbn; [reflexivity | ].
  unfold Map_keys in IH. rewrite IH. reflexivity.
Qed.

Lemma Map_update_update k f g m :
  Map_update k f (Map_update k g m) = Map_update k (fun p => f (g p)) m.
Proof.
  induction m as [| [k' v] m IH]; cbn; [reflexivity | ].
  destruct (String.eqb k k') eqn:Hk; cbn; rewrite Hk; [reflexivity | ].
  rewrite IH. reflexivity.
Qed.

Lemma Map_get_In k v m : Map_get k m = Some v -> In (k, v) m.
Proof.
  induction m as [| [k' v'] m IH]; cbn; [discriminate | ].
  destruct (String.eqb k k') eqn:Hk.
  - apply String.eqb_eq in Hk. intros [= ->]. left. congruence.
  - intros H. right. exact (IH H).
Qed.

Lemma Map_get_notin k m : ~ In k (Map_keys m) -> Map_get k m = None.
Proof.
  induction m as [| [k' v] m IH]; cbn; [reflexivity | ].
  intros H. destruct (String.eqb k k') eqn:Hk.
  - apply String.eqb_eq in Hk. subst. exfalso. apply H. left. reflexivity.
  - apply IH. intros Hin. apply H. right. exact Hin.
Qed.


Lemma Map_update_app_r k f done todo :
  ~ In k (Map_keys done) ->
  Map_update k f (done ++ todo) = done ++ Map_update k f todo.
Proof.
  induction done as [| [k' v] done IH]; cbn; [reflexivity | ].
  intros H. destruct (String.eqb k k') eqn:Hk.
  - apply String.eqb_eq in Hk. subst. exfalso. apply H. left. reflexivity.
  - rewrite IH; [reflexivity | ]. intros Hin. apply H. right. exact Hin.
Qed.

Lemma Map_get_set k v m : Map_get k (Map_set k v m) = Some v.
Proof.
  induction m as [| [k' v'] m IH]; cbn.
  - rewrite String.eqb_refl. reflexivity.
  - destruct (String.eqb k k') eqn:Hk; cbn; rewrite Hk; [reflexivity | exact IH].
Qed.

Lemma Map_get_set_other k k' v m :
  k <> k' -> Map_get k' (Map_set k v m) = Map_get k' m.
Proof.
  intros Hne. induction m as [| [k0 v0] m IH]; cbn.
  - destruct (String.eqb k' k) eqn:Hk'; [ | reflexivity].
    apply String.eqb_eq in Hk'. congruence.
  - destruct (String.eqb k k0) eqn:Hk; cbn.
    + apply String.eqb_eq in Hk. subst k0.
      destruct (String.eqb k' k) eqn:Hk'; [ | reflexivity].
      apply String.eqb_eq in Hk'. congruence.
    + rewrite IH. reflexivity.
Qed.

(** Assigning to a field of a session in the table is [set] with the
    changed session. *)
Lemma Map_update_set k f p m :
  Map_get k m = Some p -> Map_update k f m = Map_set k (f p) m.
Proof.
  induction m as [| [k' v] m IH]; cbn; [discriminate | ].
  destruct (String.eqb k k'); [intros [= ->]; reflexivity | ].
  intros H. rewrite (IH H). reflexivity.
Qed.

Lemma Map_set_set k v v' m : Map_set k v (Map_set k v' m) = Map_set k v m.
Proof.
  induction m as [| [k' v0] m IH]; cbn.
  - rewrite String.eqb_refl. reflexivity.
  - destruct (String.eqb k k') eqn:Hk; cbn; rewrite Hk; [reflexivity | ].
    rewrite IH. reflexivity.
Qed.


Lemma Map_keys_set k v p m :
  Map_get k m = Some p -> Map_keys (Map_set k v m) = Map_keys m.
Proof.
  induction m as [| [k' v0] m IH]; cbn; [discriminate | ].
  destruct (String.eqb k k'); cbn; [reflexivity | ].
  intros H. unfold Map_keys in IH. rewrite (IH H). reflexivity.
Qed.

Lemma In_Map_get k v m : Map_wf m -> In (k, v) m -> Map_get k m = Some v.
Proof.
  unfold Map_wf, Map_keys. induction m as [| [k' v'] m IH]; cbn; [intros _ [] | ].
  intros Hwf [Heq | Hin].
  - injection Heq as -> ->. rewrite String.eqb_refl. reflexivity.
  - inversion Hwf as [| ? ? Hnotin Hwf']; subst.
    destruct (String.eqb k k') eqn:Hk; [ | exact (IH Hwf' Hin)].
    apply String.eqb_eq in Hk. subst. exfalso. apply Hnotin.
    exact (in_map fst _ _ Hin).
Qed.



End MapFacts.

(** ** The console is write-only *)

(** No function of the module reads the console. *)
Module Blind.

Import MorphRTC.

Lemma bind_eq {A B} (c : M A) (k : A -> M B) w :
  bind c k w = k (fst (c w)) (snd (c w)).
Proof. reflexivity. Qed.

Lemma silent_silent w : silent (silent w) = silent w.
Proof. reflexivity. Qed.

(** Two worlds that differ in the console only are taken to two such
    worlds, with the same result. *)
Lemma blind_respects {A} (c : M A) w1 w2 :
  console_blind c -> silent w1 = silent w2 ->
  result c w1 = result c w2 /\ silent (exec c w1) = silent (exec c w2).
Proof.
  intros Hc Heq.
  destruct (Hc w1) as (Hr1 & He1). destruct (Hc w2) as (Hr2 & He2).
  rewrite <- Hr1, <- He1, <- Hr2, <- He2, Heq. split; reflexivity.
Qed.

Lemma blind_ret {A} (a : A) : console_blind (ret a).
Proof. intros w. split; reflexivity. Qed.

Lemma blind_bind {A B} (c : M A) (k : A -> M B) :
  console_blind c -> (forall a, console_blind (k a)) -> console_blind (bind c k).
Proof.
  intros Hc Hk w. destruct (Hc w) as (Hr & He).
  unfold result, exec, bind in *. rewrite Hr.
  exact (blind_respects (k (fst (c w))) _ _ (Hk _) He).
Qed.

Lemma blind_gets {A} (f : World -> A) :
  (forall w, f (silent w) = f w) -> console_blind (gets f).
Proof. intros Hf w. split; [apply Hf | reflexivity]. Qed.

Lemma blind_modify (f : World -> World) :
  (forall w, silent (f (silent w)) = silent (f w)) -> console_blind (modify f).
Proof. intros Hf w. split; [reflexivity | apply Hf]. Qed.

Lemma blind_forEach {A} (l : list A) (body : A -> M unit) :
  (forall a, console_blind (body a)) -> console_blind (forEach l body).
Proof.
  intros Hb. induction l as [| a l IH]; cbn [forEach].
  - apply blind_ret.
  - apply blind_bind; [apply Hb | intros _; exact IH].
Qed.

Lemma blind_collect {A B} (l : list A) (body : A -> M B) :
  (forall a, console_blind (body a)) -> console_blind (collect l body).
Proof.
  intros Hb. induction l as [| a l IH]; cbn [collect].
  - apply blind_ret.
  - apply blind_bind; [apply Hb | intros r].
    apply blind_bind; [exact IH | intros rs; apply blind_ret].
Qed.

Lemma blind_console_write l line : console_blind (console_write l line).
Proof. intros w. split; reflexivity. Qed.

Lemma blind_emit e : console_blind (emit e).
Proof. intros w. split; reflexivity. Qed.

Lemma blind_assign peerId f : console_blind (assign peerId f).
Proof. intros w. split; reflexivity. Qed.

Lemma blind_peers_get peerId : console_blind (peers_get peerId).
Proof. intros w. split; reflexivity. Qed.

Lemma blind_peers_set peerId p : console_blind (peers_set peerId p).
Proof. intros w. split; reflexivity. Qed.

Lemma blind_peers_delete peerId : console_blind (peers_delete peerId).
Proof. intros w. split; reflexivity. Qed.

Lemma blind_peers_clear : console_blind peers_clear.
Proof. intros w. split; reflexivity. Qed.

Lemma blind_connection_close pc : console_blind (connection_close pc).
Proof. intros w. split; reflexivity. Qed.

Lemma blind_sendSignal target signal : console_blind (sendSignal target signal).
Proof. intros w. split; reflexivity. Qed.

Lemma blind_new_RTCPeerConnection : console_blind new_RTCPeerConnection.
Proof. intros w. split; reflexivity. Qed.

Lemma blind_dataChannel_send E dc frame : console_blind (dataChannel_send E dc frame).
Proof.
  intros w. unfold result, exec, dataChannel_send.
  change (readyState dc (silent w)) with (readyState dc w).
  destruct (is_open (readyState dc w) && channel_accepts E dc frame);
    split; reflexivity.
Qed.

Lemma blind_MorphCrypto_encrypt E key plaintext :
  console_blind (MorphCrypto_encrypt E key plaintext).
Proof. intros w. split; reflexivity. Qed.

Create HintDb blind.

#[export] Hint Resolve blind_console_write blind_emit blind_assign blind_peers_get
  blind_peers_set blind_peers_delete blind_peers_clear blind_connection_close
  blind_sendSignal blind_new_RTCPeerConnection blind_dataChannel_send
  blind_MorphCrypto_encrypt : blind.

(** Follows the syntax of a computation down to the primitives. *)
Ltac blind :=
  repeat match goal with
         | |- console_blind (ret _) => apply blind_ret
         | |- console_blind (bind _ _) => apply blind_bind; [ | intros ? ]
         | |- console_blind (gets _) => apply blind_gets; intros ?; reflexivity
         | |- console_blind (forEach _ _) => apply blind_forEach; intros ?
         | |- console_blind (collect _ _) => apply blind_collect; intros ?
         | |- console_blind (match ?x with _ => _ end) => destruct x
         | |- console_blind _ => solve [auto with blind nocore]
         end.

Lemma blind_handlePeerDisconnect peerId : console_blind (handlePeerDisconnect peerId).
Proof. unfold handlePeerDisconnect. blind. Qed.

Lemma blind_sendToPeer E peerId msg : console_blind (sendToPeer E peerId msg).
Proof. unfold sendToPeer. blind. Qed.

#[export] Hint Resolve blind_handlePeerDisconnect blind_sendToPeer : blind.

Lemma blind_keyExchange E peerId peer publicKey :
  console_blind (keyExchange E peerId peer publicKey).
Proof. unfold keyExchange. blind. Qed.

#[export] Hint Resolve blind_keyExchange : blind.

Lemma blind_handleSignal E peerId peerName signal :
  console_blind (handleSignal E peerId peerName signal).
Proof. unfold handleSignal. blind. Qed.

#[export] Hint Resolve blind_handleSignal : blind.

Lemma blind_dc_onmessage E peerId raw : console_blind (dc_onmessage E peerId raw).
Proof. unfold dc_onmessage. blind. Qed.

Lemma blind_teardown peerId t : console_blind (teardown peerId t).
Proof.
  destruct t; cbn [teardown];
    unfold pc_oniceconnectionstatechange, dc_onclose, disconnectPeer; blind.
Qed.

End Blind.

(** ** Teardown *)

Module TeardownFacts.

Import MorphRTC MapFacts Blind.

Lemma exec_forEach_cons {A} (a : A) l body w :
  exec (forEach (a :: l) body) w = exec (forEach l body) (exec (body a) w).
Proof. reflexivity. Qed.

Lemma handlePeerDisconnect_absent peerId w :
  Map_get peerId (peers w) = None -> handlePeerDisconnect peerId w = (tt, w).
Proof.
  intros H. unfold handlePeerDisconnect, bind, peers_get, gets. cbn.
  rewrite H. reflexivity.
Qed.

Lemma handlePeerDisconnect_present peerId peer w :
  Map_get peerId (peers w) = Some peer ->
  handlePeerDisconnect peerId w
  = (tt, set_events (events w ++ [peer_disconnected peerId (name peer)])
           (set_peers (Map_delete peerId (peers w))
              (set_closed (closed w ++ [connection peer]) w))).
Proof.
  intros H. unfold handlePeerDisconnect, bind, peers_get, gets. cbn.
  rewrite H. reflexivity.
Qed.

(** A trigger for a peer without session changes the console at most. *)
Lemma teardown_absent peerId t w :
  Map_get peerId (peers w) = None -> silent (exec (teardown peerId t) w) = silent w.
Proof.
  intros H. destruct t; cbn [teardown].
  - unfold pc_oniceconnectionstatechange, exec, bind, console_write, modify. cbn [fst snd].
    destruct (_ || _); [ | reflexivity].
    rewrite handlePeerDisconnect_absent; [reflexivity | exact H].
  - unfold dc_onclose, exec, bind, console_write, modify. cbn [fst snd].
    rewrite handlePeerDisconnect_absent; [reflexivity | exact H].
  - unfold disconnectPeer, exec. rewrite handlePeerDisconnect_absent; [reflexivity | exact H].
Qed.

(** An ICE report of a state that is not terminal changes the console only. *)
Lemma teardown_idle peerId t w :
  fires t = false -> silent (exec (teardown peerId t) w) = silent w.
Proof.
  destruct t; cbn [fires teardown]; [ | discriminate | discriminate].
  intros H. unfold pc_oniceconnectionstatechange, exec, bind, console_write, modify.
  cbn [fst snd]. rewrite H. reflexivity.
Qed.

(** A trigger that fires does what [handlePeerDisconnect] does. *)
Lemma teardown_fires peerId t w :
  fires t = true ->
  silent (exec (teardown peerId t) w) = silent (exec (handlePeerDisconnect peerId) w).
Proof.
  destruct t; cbn [fires teardown]; intros H.
  - unfold pc_oniceconnectionstatechange, exec, bind, console_write, modify.
    cbn [fst snd]. rewrite H.
    apply (blind_respects (handlePeerDisconnect peerId)); [blind | reflexivity].
  - unfold dc_onclose, exec, bind, console_write, modify. cbn [fst snd].
    apply (blind_respects (handlePeerDisconnect peerId)); [blind | reflexivity].
  - reflexivity.
Qed.

Lemma teardowns_absent peerId ts : forall w,
  Map_get peerId (peers w) = None ->
  silent (exec (forEach ts (teardown peerId)) w) = silent w.
Proof.
  induction ts as [| t ts IH]; intros w H; [reflexivity | ].
  rewrite exec_forEach_cons.
  pose proof (teardown_absent peerId t w H) as H1.
  rewrite IH; [exact H1 | ].
  change (peers (exec (teardown peerId t) w))
    with (peers (silent (exec (teardown peerId t) w))).
  rewrite H1. exact H.
Qed.

Lemma teardowns_present peerId peer ts : forall w,
  Map_get peerId (peers w) = Some peer ->
  existsb fires ts = true ->
  silent (exec (forEach ts (teardown peerId)) w)
  = silent (exec (handlePeerDisconnect peerId) w).
Proof.
  induction ts as [| t ts IH]; intros w H Hf; [discriminate | ].
  rewrite exec_forEach_cons. cbn [existsb] in Hf.
  destruct (fires t) eqn:Ht.
  - pose proof (teardown_fires peerId t w Ht) as H1.
    rewrite teardowns_absent; [exact H1 | ].
    change (peers (exec (teardown peerId t) w))
      with (peers (silent (exec (teardown peerId t) w))).
    rewrite H1. unfold exec. rewrite (handlePeerDisconnect_present _ _ _ H).
    apply Map_get_delete.
  - pose proof (teardown_idle peerId t w Ht) as H1.
    rewrite IH.
    + apply (blind_respects (handlePeerDisconnect peerId)); [blind | exact H1].
    + change (peers (exec (teardown peerId t) w))
        with (peers (silent (exec (teardown peerId t) w))).
      rewrite H1. exact H.
    + exact Hf.
Qed.

(** C5. Whatever teardown triggers fire for a peer that has a session (an
    ICE report, the closure of the channel, [disconnectPeer]), in any
    number and order, the session leaves the table, its connection is
    closed once and exactly one disconnect event is emitted, by the first
    trigger that fires; every trigger after that finds no session and
    emits nothing. *)
Theorem teardown_emits_one_disconnect (w : World) (peerId : PeerId) (peer : PeerState)
    (ts more : list Teardown) :
  Map_get peerId (peers w) = Some peer ->
  existsb fires ts = true ->
  events (exec (forEach ts (teardown peerId)) w)
    = events w ++ [peer_disconnected peerId (name peer)]
  /\ peers (exec (forEach ts (teardown peerId)) w) = Map_delete peerId (peers w)
  /\ Map_get peerId (peers (exec (forEach ts (teardown peerId)) w)) = None
  /\ closed (exec (forEach ts (teardown peerId)) w) = closed w ++ [connection peer]
  /\ events (exec (forEach more (teardown peerId)) (exec (forEach ts (teardown peerId)) w))
     = events (exec (forEach ts (teardown peerId)) w).
Proof.
  intros H Hf.
  pose proof (teardowns_present peerId peer ts w H Hf) as H1.
  unfold exec at 2 in H1. rewrite (handlePeerDisconnect_present _ _ _ H) in H1.
  cbn [snd] in H1.
  set (w' := exec (forEach ts (teardown peerId)) w) in *.
  assert (Hp : peers w' = Map_delete peerId (peers w))
    by exact (f_equal peers H1).
  assert (Hgone : Map_get peerId (peers w') = None)
    by (rewrite Hp; apply Map_get_delete).
  split; [exact (f_equal events H1) | ].
  split; [exact Hp | ].
  split; [exact Hgone | ].
  split; [exact (f_equal closed H1) | ].
  exact (f_equal events (teardowns_absent peerId more w' Hgone)).
Qed.

Lemma teardown_emits_one_disconnect_witness :
  Map_get "bob" (peers Demo.w_encrypted)
    = Some {| connection := 0; dataChannel := Some 0; sharedKey := Some 3;
              name := "Bob"; state := "encrypted"; isInitiator := true;
              pendingMessages := [] |}
  /\ existsb fires [by_ice "checking"; by_ice "failed"; by_channel_close;
                    by_disconnectPeer] = true
  /\ events (exec (forEach [by_ice "checking"; by_ice "failed"; by_channel_close;
                            by_disconnectPeer] (teardown "bob")) Demo.w_encrypted)
     = events Demo.w_encrypted ++ [peer_disconnected "bob" "Bob"].
Proof.
  split; [reflexivity | ]. split; [reflexivity | ].
  exact (proj1 (teardown_emits_one_disconnect Demo.w_encrypted "bob" _
                  [by_ice "checking"; by_ice "failed"; by_channel_close;
                   by_disconnectPeer]
                  [by_channel_close] eq_refl eq_refl)).
Defined.

(** *** [disconnectPeer] and [disconnectAll] *)

Lemma set_peers_same w : set_peers (peers w) w = w.
Proof. destruct w. reflexivity. Qed.

Lemma disconnectAll_clears w : peers (exec disconnectAll w) = [].
Proof. reflexivity. Qed.

Lemma disconnectAll_empty w : peers w = [] -> disconnectAll w = (tt, w).
Proof.
  intros H. unfold disconnectAll, bind, gets, peers_clear, modify. cbn [fst snd].
  rewrite H. cbn. rewrite <- H. rewrite set_peers_same. reflexivity.
Qed.

(** Tearing down, in table order, the sessions [todo] that are left in the
    table emits their disconnect events in that order, one each. *)
Lemma disconnect_each todo : forall w,
  peers w = todo -> Map_wf todo ->
  exec (forEach (Map_keys todo) handlePeerDisconnect) w
  = set_events (events w ++ map (fun e => peer_disconnected (fst e) (name (snd e))) todo)
      (set_peers []
         (set_closed (closed w ++ map (fun e => connection (snd e)) todo) w)).
Proof.
  induction todo as [| [k p] rest IH]; intros w Hp Hwf.
  - cbn. rewrite !app_nil_r. destruct w. cbn in Hp. subst. reflexivity.
  - cbn [Map_keys map fst]. rewrite exec_forEach_cons.
    assert (Hget : Map_get k (peers w) = Some p)
      by (rewrite Hp; cbn; rewrite String.eqb_refl; reflexivity).
    unfold exec at 2. rewrite (handlePeerDisconnect_present _ _ _ Hget). cbn [snd].
    inversion Hwf as [| ? ? Hnotin Hwf']; subst.
    assert (Hdel : Map_delete k (peers w) = rest).
    { rewrite Hp. unfold Map_delete. cbn. rewrite String.eqb_refl. cbn.
      apply (Map_delete_absent k rest). apply Map_get_notin. exact Hnotin. }
    rewrite Hdel.
    fold (Map_keys rest).
    rewrite IH; [ | reflexivity | exact Hwf'].
    cbn. rewrite <- !app_assoc. reflexivity.
Qed.

(** [disconnectAll] emits one disconnect event per session, in table
    order, closes every connection and leaves the table empty. *)
Lemma disconnectAll_spec w :
  Map_wf (peers w) ->
  exec disconnectAll w
  = set_events (events w
                ++ map (fun e => peer_disconnected (fst e) (name (snd e))) (peers w))
      (set_peers []
         (set_closed (closed w ++ map (fun e => connection (snd e)) (peers w)) w)).
Proof.
  intros Hwf. unfold disconnectAll, exec, bind, gets, peers_clear, modify. cbn [fst snd].
  pose proof (disconnect_each (peers w) w eq_refl Hwf) as H.
  unfold exec in H. rewrite H. reflexivity.
Qed.

(** C6. [disconnectPeer] leaves the world as it is when the peer has no
    session, and a second call after a first changes nothing and emits
    nothing; [disconnectAll] on an empty table leaves the world as it is, a
    second [disconnectAll] after a first changes nothing, and after
    [disconnectAll] the roster is empty whatever the state before. *)
Theorem disconnect_idempotent (w : World) (peerId : PeerId) :
  (Map_get peerId (peers w) = None -> disconnectPeer peerId w = (tt, w))
  /\ disconnectPeer peerId (exec (disconnectPeer peerId) w)
     = (tt, exec (disconnectPeer peerId) w)
  /\ (peers w = [] -> disconnectAll w = (tt, w))
  /\ disconnectAll (exec disconnectAll w) = (tt, exec disconnectAll w)
  /\ getPeerList (exec disconnectAll w) = []
  /\ getPeerCount (exec disconnectAll w) = 0.
Proof.
  split; [apply handlePeerDisconnect_absent | ].
  split.
  { unfold disconnectPeer. apply handlePeerDisconnect_absent.
    destruct (Map_get peerId (peers w)) as [peer |] eqn:H; unfold exec.
    - rewrite (handlePeerDisconnect_present _ _ _ H). apply Map_get_delete.
    - rewrite (handlePeerDisconnect_absent _ _ H). exact H. }
  split; [apply disconnectAll_empty | ].
  split; [apply disconnectAll_empty; apply disconnectAll_clears | ].
  split; reflexivity.
Qed.

Lemma disconnect_idempotent_witness :
  Map_get "zoe" (peers Demo.w_two) = None
  /\ disconnectPeer "zoe" Demo.w_two = (tt, Demo.w_two)
  /\ peers initial = []
  /\ disconnectAll initial = (tt, initial)
  /\ getPeerList (exec disconnectAll Demo.w_two) = [].
Proof.
  split; [reflexivity | ].
  split; [exact (proj1 (disconnect_idempotent Demo.w_two "zoe") eq_refl) | ].
  split; [reflexivity | ].
  split; [exact (proj1 (proj2 (proj2 (disconnect_idempotent initial "zoe"))) eq_refl) | ].
  exact (proj1 (proj2 (proj2 (proj2 (proj2 (disconnect_idempotent Demo.w_two "zoe")))))).
Defined.

End TeardownFacts.

(** ** Sending *)

Module SendFacts.

Import MorphRTC MapFacts Blind.

Section WithEnv.

Variable E : Env.

Lemma sendToPeer_absent peerId msg w :
  Map_get peerId (peers w) = None -> sendToPeer E peerId msg w = (false, w).
Proof.
  intros H. unfold sendToPeer, bind, peers_get, gets. cbn. rewrite H. reflexivity.
Qed.

(** Without a shared key the message is queued, whatever the state. *)
Lemma sendToPeer_queues peerId msg w peer :
  Map_get peerId (peers w) = Some peer -> sharedKey peer = None ->
  sendToPeer E peerId msg w
  = (true, set_peers (Map_set peerId (push_pending msg peer) (peers w)) w).
Proof.
  intros H Hk. unfold sendToPeer, bind, peers_get, gets, assign, modify. cbn.
  rewrite H, Hk. cbn. rewrite (Map_update_set _ _ _ _ H). reflexivity.
Qed.

(** With a shared key and a channel that is not open the message is
    refused with a warning. *)
Lemma sendToPeer_refuses peerId msg w peer key :
  Map_get peerId (peers w) = Some peer -> sharedKey peer = Some key ->
  channel_not_open peer w = true ->
  sendToPeer E peerId msg w
  = (false, set_console (console w ++ [(lvl_warn, ("[RTC] Channel not open for " ++ peerId)%string)]) w).
Proof.
  intros H Hk Hc. unfold sendToPeer, bind, peers_get, gets, console_write, modify. cbn.
  rewrite H, Hk. cbn. rewrite Hc. reflexivity.
Qed.

(** With a shared key and an open channel the message is serialized,
    encrypted with a fresh IV and handed to the channel. *)
Lemma sendToPeer_transmits peerId msg w peer key dc :
  Map_get peerId (peers w) = Some peer -> sharedKey peer = Some key ->
  dataChannel peer = Some dc -> readyState dc w = rs_open ->
  sendToPeer E peerId msg w
  = match encrypt E key (ivs w) (JSON_stringify E msg) with
    | Some frame =>
        if channel_accepts E dc frame
        then (true, set_sent (sent w ++ [(dc, frame)]) (set_ivs (S (ivs w)) w))
        else (false, set_console (console w ++ [(lvl_error, ("[RTC] Send error to " ++ peerId)%string)])
                       (set_ivs (S (ivs w)) w))
    | None => (false, set_console (console w ++ [(lvl_error, ("[RTC] Send error to " ++ peerId)%string)])
                        (set_ivs (S (ivs w)) w))
    end.
Proof.
  intros H Hk Hdc Hopen.
  unfold sendToPeer, bind, peers_get, gets, console_write, modify, MorphCrypto_encrypt,
    dataChannel_send, channel_not_open. cbn.
  rewrite H, Hk. cbn. rewrite Hdc, Hopen. cbn.
  destruct (encrypt E key (ivs w) (JSON_stringify E msg)) as [frame |]; cbn; [ | reflexivity].
  unfold readyState in *. cbn. rewrite Hopen. cbn.
  destruct (channel_accepts E dc frame); reflexivity.
Qed.

(** C10. When the session holds a shared key and its data channel is
    missing or not open, [sendToPeer] returns [false]; nothing is handed to
    any channel and the table, hence the pending queue of the session, is
    left as it was: the message is dropped with a warning. *)
Theorem send_with_key_off_channel_drops (peerId : PeerId) (msg : json) (w : World)
    (peer : PeerState) (key : CryptoKey) :
  Map_get peerId (peers w) = Some peer ->
  sharedKey peer = Some key ->
  channel_not_open peer w = true ->
  result (sendToPeer E peerId msg) w = false
  /\ sent (exec (sendToPeer E peerId msg) w) = sent w
  /\ peers (exec (sendToPeer E peerId msg) w) = peers w
  /\ Map_get peerId (peers (exec (sendToPeer E peerId msg) w)) = Some peer
  /\ silent (exec (sendToPeer E peerId msg) w) = silent w.
Proof.
  intros H Hk Hc. unfold result, exec.
  rewrite (sendToPeer_refuses _ _ _ _ _ H Hk Hc). cbn.
  repeat split. exact H.
Qed.

(** C2, as the code has it. For a peer with a session, [sendToPeer]
    decides by the shared key and the channel, not by the [state] field:
    without a key the message is appended to the pending queue and [true]
    is returned, in every state; with a key and a channel that is missing
    or not open, [false] is returned and nothing is sent or queued; with a
    key and an open channel the message is serialized, encrypted under the
    key with a fresh IV and handed to the channel, returning [true], or
    [false] with nothing sent when the encryption or the channel fails. *)
Theorem send_by_key_and_channel (peerId : PeerId) (msg : json) (w : World)
    (peer : PeerState) :
  Map_get peerId (peers w) = Some peer ->
  (sharedKey peer = None ->
     sendToPeer E peerId msg w
     = (true, set_peers (Map_set peerId (push_pending msg peer) (peers w)) w))
  /\ (forall key, sharedKey peer = Some key -> channel_not_open peer w = true ->
        result (sendToPeer E peerId msg) w = false
        /\ sent (exec (sendToPeer E peerId msg) w) = sent w
        /\ peers (exec (sendToPeer E peerId msg) w) = peers w)
  /\ (forall key dc, sharedKey peer = Some key -> dataChannel peer = Some dc ->
        readyState dc w = rs_open ->
        (forall frame,
            encrypt E key (ivs w) (JSON_stringify E msg) = Some frame ->
            channel_accepts E dc frame = true ->
            sendToPeer E peerId msg w
            = (true, set_sent (sent w ++ [(dc, frame)]) (set_ivs (S (ivs w)) w)))
        /\ ((encrypt E key (ivs w) (JSON_stringify E msg) = None
             \/ exists frame,
                 encrypt E key (ivs w) (JSON_stringify E msg) = Some frame
                 /\ channel_accepts E dc frame = false) ->
            result (sendToPeer E peerId msg) w = false
            /\ sent (exec (sendToPeer E peerId msg) w) = sent w
            /\ peers (exec (sendToPeer E peerId msg) w) = peers w)).
Proof.
  intros H. split; [ | split].
  - intros Hk. exact (sendToPeer_queues _ _ _ _ H Hk).
  - intros key Hk Hc. unfold result, exec.
    rewrite (sendToPeer_refuses _ _ _ _ _ H Hk Hc). repeat split.
  - intros key dc Hk Hdc Hopen.
    pose proof (sendToPeer_transmits _ msg _ _ _ _ H Hk Hdc Hopen) as Hs.
    split.
    + intros frame He Ha. rewrite Hs, He, Ha. reflexivity.
    + unfold result, exec. intros [He | (frame & He & Ha)]; rewrite Hs, He.
      * repeat split.
      * rewrite Ha. repeat split.
Qed.

(** Sending a list of messages one after the other to a peer without
    session does nothing. *)
Lemma flush_absent peerId msgs : forall w,
  Map_get peerId (peers w) = None ->
  forEach msgs (fun msg => sendToPeer E peerId msg ;; ret tt) w = (tt, w).
Proof.
  induction msgs as [| msg msgs IH]; intros w H; [reflexivity | ].
  cbn [forEach]. rewrite !bind_eq, (sendToPeer_absent _ msg _ H).
  cbn [fst snd ret]. apply IH. exact H.
Qed.

End WithEnv.

Lemma send_with_key_off_channel_drops_witness :
  Map_get "bob" (peers Demo.w_closing)
    = Some {| connection := 0; dataChannel := Some 0; sharedKey := Some 3;
              name := "Bob"; state := "encrypted"; isInitiator := true;
              pendingMessages := [] |}
  /\ readyState 0 Demo.w_closing = rs_closing
  /\ result (sendToPeer Demo.env "bob" (Demo.chat "late")) Demo.w_closing = false
  /\ sent (exec (sendToPeer Demo.env "bob" (Demo.chat "late")) Demo.w_closing)
     = sent Demo.w_closing.
Proof.
  split; [reflexivity | ]. split; [reflexivity | ].
  destruct (send_with_key_off_channel_drops Demo.env "bob" (Demo.chat "late")
              Demo.w_closing _ 3 eq_refl eq_refl eq_refl) as (Hr & Hs & _).
  split; [exact Hr | exact Hs].
Defined.

(** C2 fails as stated: a session that is still connecting, so neither
    open nor encrypted, accepts the message and queues it. *)
Lemma send_while_connecting_is_accepted :
  Map_get "bob" (peers Demo.w_connecting)
    = Some {| connection := 0; dataChannel := Some 0; sharedKey := None;
              name := "Bob"; state := "connecting"; isInitiator := true;
              pendingMessages := [] |}
  /\ result (sendToPeer Demo.env "bob" (Demo.chat "one")) Demo.w_connecting = true
  /\ peers (exec (sendToPeer Demo.env "bob" (Demo.chat "one")) Demo.w_connecting)
     = [("bob", {| connection := 0; dataChannel := Some 0; sharedKey := None;
                   name := "Bob"; state := "connecting"; isInitiator := true;
                   pendingMessages := [Demo.chat "one"] |})].
Proof. repeat split. Qed.

Lemma send_by_key_and_channel_witness :
  Map_get "bob" (peers Demo.w_connecting)
    = Some {| connection := 0; dataChannel := Some 0; sharedKey := None;
              name := "Bob"; state := "connecting"; isInitiator := true;
              pendingMessages := [] |}
  /\ result (sendToPeer Demo.env "bob" (Demo.chat "one")) Demo.w_connecting = true
  /\ sendToPeer Demo.env "bob" (Demo.chat "three") Demo.w_encrypted
     = (true, set_sent (sent Demo.w_encrypted ++ [(0, "D{three")])
                (set_ivs 3 Demo.w_encrypted)).
Proof.
  split; [reflexivity | ].
  split.
  - exact (f_equal fst
             (proj1 (send_by_key_and_channel Demo.env "bob" (Demo.chat "one")
                       Demo.w_connecting _ eq_refl) eq_refl)).
  - destruct (send_by_key_and_channel Demo.env "bob" (Demo.chat "three")
                Demo.w_encrypted _ eq_refl) as (_ & _ & Hopen).
    exact (proj1 (Hopen 3 0 eq_refl eq_refl eq_refl) "D{three"%string eq_refl eq_refl).
Defined.

End SendFacts.

(** ** Receiving *)

Module ReceiveFacts.

Import MorphRTC MapFacts Blind.

(** An application frame that fails to decrypt: logged, nothing else. *)
Lemma dc_onmessage_undecryptable E peerId raw w peer key :
  Map_get peerId (peers w) = Some peer ->
  sharedKey peer = Some key ->
  is_control (JSON_parse E raw) = false ->
  decrypt E key raw = None ->
  dc_onmessage E peerId raw w
  = (tt, set_console (console w ++ [(lvl_error, "[RTC] Message decode error:"%string)]) w).
Proof.
  intros H Hk Hc Hd. unfold dc_onmessage, bind, peers_get, gets, console_write, modify.
  cbn. rewrite H, Hc, Hk, Hd. reflexivity.
Qed.


(** C8. When an application frame arrives for a session that holds a
    shared key and its decryption fails, the handler returns after logging
    one error line: the session stays in the table with its state, key and
    queue, no event (no disconnect in particular) is emitted, no connection
    is closed, nothing is sent; and the frames delivered afterwards, for
    this or any other peer, are processed exactly as if the bad frame had
    never arrived. *)
Theorem decrypt_failure_drops_one_frame (E : Env) (peerId : PeerId) (raw : string)
    (w : World) (peer : PeerState) (key : CryptoKey) (later : list (PeerId * string)) :
  Map_get peerId (peers w) = Some peer ->
  sharedKey peer = Some key ->
  is_control (JSON_parse E raw) = false ->
  decrypt E key raw = None ->
  console (exec (dc_onmessage E peerId raw) w)
    = console w ++ [(lvl_error, "[RTC] Message decode error:"%string)]
  /\ peers (exec (dc_onmessage E peerId raw) w) = peers w
  /\ Map_get peerId (peers (exec (dc_onmessage E peerId raw) w)) = Some peer
  /\ events (exec (dc_onmessage E peerId raw) w) = events w
  /\ closed (exec (dc_onmessage E peerId raw) w) = closed w
  /\ sent (exec (dc_onmessage E peerId raw) w) = sent w
  /\ silent (exec (deliver E later) (exec (dc_onmessage E peerId raw) w))
     = silent (exec (deliver E later) w).
Proof.
  intros H Hk Hc Hd.
  assert (Heq : exec (dc_onmessage E peerId raw) w
                = set_console (console w ++ [(lvl_error, "[RTC] Message decode error:"%string)]) w)
    by (unfold exec; rewrite (dc_onmessage_undecryptable _ _ _ _ _ _ H Hk Hc Hd); reflexivity).
  rewrite Heq. cbn [console peers events closed sent set_console].
  repeat split; try exact H.
  apply (blind_respects (deliver E later)); [ | reflexivity].
  unfold deliver. apply blind_forEach. intros f. apply blind_dc_onmessage.
Qed.

Lemma decrypt_failure_drops_one_frame_witness :
  Map_get "bob" (peers Demo.w_encrypted)
    = Some {| connection := 0; dataChannel := Some 0; sharedKey := Some 3;
              name := "Bob"; state := "encrypted"; isInitiator := true;
              pendingMessages := [] |}
  /\ decrypt Demo.env 3 "forged" = None
  /\ peers (exec (dc_onmessage Demo.env "bob" "forged") Demo.w_encrypted)
     = peers Demo.w_encrypted
  /\ events (exec (dc_onmessage Demo.env "bob" "forged") Demo.w_encrypted)
     = events Demo.w_encrypted
  /\ events (exec (deliver Demo.env [("bob", "D{hello"%string)])
                 (exec (dc_onmessage Demo.env "bob" "forged") Demo.w_encrypted))
     = events Demo.w_encrypted ++ [message "bob" "Bob" (Demo.chat "hello")].
Proof.
  split; [reflexivity | ]. split; [reflexivity | ].
  destruct (decrypt_failure_drops_one_frame Demo.env "bob" "forged" Demo.w_encrypted
              _ 3 [("bob", "D{hello"%string)] eq_refl eq_refl eq_refl eq_refl)
    as (_ & Hp & _ & He & _ & _ & Hlater).
  split; [exact Hp | ]. split; [exact He | ].
  exact (f_equal events Hlater).
Defined.

End ReceiveFacts.

(** ** Key exchange *)

Module KeyExchangeFacts.

Import MorphRTC MapFacts Blind SendFacts.

Section WithEnv.

Variable E : Env.

Lemma channel_open_inv peer w :
  channel_not_open peer w = false ->
  exists dc, dataChannel peer = Some dc /\ readyState dc w = rs_open.
Proof.
  unfold channel_not_open. destruct (dataChannel peer) as [dc |]; [ | discriminate].
  intros H. exists dc. split; [reflexivity | ].
  destruct (readyState dc w); cbn in H; try discriminate. reflexivity.
Qed.

(** With a shared key in place, [sendToPeer] touches neither the table
    nor the events nor the channels' states. *)
Lemma sendToPeer_keyed peerId msg w peer key :
  Map_get peerId (peers w) = Some peer -> sharedKey peer = Some key ->
  peers (exec (sendToPeer E peerId msg) w) = peers w
  /\ events (exec (sendToPeer E peerId msg) w) = events w
  /\ readyStates (exec (sendToPeer E peerId msg) w) = readyStates w.
Proof.
  intros H Hk. unfold exec.
  destruct (channel_not_open peer w) eqn:Hc.
  - rewrite (sendToPeer_refuses _ _ _ _ _ _ H Hk Hc). repeat split.
  - destruct (channel_open_inv _ _ Hc) as (dc & Hdc & Hopen).
    rewrite (sendToPeer_transmits _ _ msg _ _ _ _ H Hk Hdc Hopen).
    destruct (encrypt E key (ivs w) (JSON_stringify E msg)) as [frame |];
      [destruct (channel_accepts E dc frame) | ]; repeat split.
Qed.

Lemma exec_flush_cons peerId msg msgs w :
  exec (flush E peerId (msg :: msgs)) w
  = exec (flush E peerId msgs) (exec (sendToPeer E peerId msg) w).
Proof. reflexivity. Qed.

Lemma flush_keyed peerId msgs : forall w peer key,
  Map_get peerId (peers w) = Some peer -> sharedKey peer = Some key ->
  peers (exec (flush E peerId msgs) w) = peers w
  /\ events (exec (flush E peerId msgs) w) = events w.
Proof.
  induction msgs as [| msg msgs IH]; intros w peer key H Hk.
  - split; reflexivity.
  - rewrite exec_flush_cons.
    destruct (sendToPeer_keyed peerId msg w peer key H Hk) as (Hp & He & _).
    destruct (IH (exec (sendToPeer E peerId msg) w) peer key) as (Hp' & He').
    + rewrite Hp. exact H.
    + exact Hk.
    + rewrite Hp', He', Hp, He. split; reflexivity.
Qed.


(** The body of the [try] when the derivation succeeds, step by step. *)
Lemma keyExchange_steps peerId peer publicKey w kp key :
  myKeyPair w = Some kp ->
  completeKeyExchange E kp publicKey = Some key ->
  exec (keyExchange E peerId peer publicKey) w
  = exec (assign peerId (set_pendingMessages []))
      (exec (flush E peerId (pendingMessages peer))
         (set_events (events w ++ [peer_encrypted peerId (name peer)])
            (set_console (console w ++ [(lvl_log, ("[RTC] Encrypted channel with " ++ name peer)%string)])
               (set_peers (Map_update peerId (set_state "encrypted")
                             (Map_update peerId (set_sharedKey (Some key)) (peers w)))
                  w)))).
Proof.
  intros Hkp Hd.
  unfold keyExchange, flush, exec, bind, gets, assign, modify, console_write, emit.
  cbn [fst snd]. rewrite Hkp, Hd. reflexivity.
Qed.

(** The world once the derived key is installed and announced, before the
    flush. *)
Lemma keyExchange_derived peerId peer publicKey w kp key :
  Map_get peerId (peers w) = Some peer ->
  myKeyPair w = Some kp ->
  completeKeyExchange E kp publicKey = Some key ->
  exec (keyExchange E peerId peer publicKey) w
  = exec (assign peerId (set_pendingMessages []))
      (exec (flush E peerId (pendingMessages peer))
         (set_events (events w ++ [peer_encrypted peerId (name peer)])
            (set_console (console w ++ [(lvl_log, ("[RTC] Encrypted channel with " ++ name peer)%string)])
               (set_peers (Map_set peerId (set_state "encrypted" (set_sharedKey (Some key) peer))
                             (peers w)) w)))).
Proof.
  intros H Hkp Hd. rewrite (keyExchange_steps _ _ _ _ _ _ Hkp Hd).
  rewrite (Map_update_set _ _ _ _ H).
  rewrite (Map_update_set _ (set_state "encrypted") _ _ (Map_get_set _ _ _)).
  rewrite Map_set_set. reflexivity.
Qed.

Lemma keyExchange_fails peerId peer publicKey w :
  match myKeyPair w with
  | Some kp => completeKeyExchange E kp publicKey
  | None => None
  end = None ->
  keyExchange E peerId peer publicKey w
  = (tt, set_console (console w ++ [(lvl_error, "[RTC] Key exchange failed:"%string)]) w).
Proof.
  intros Hd. unfold keyExchange. rewrite bind_eq. unfold gets at 1. cbn [fst snd].
  rewrite Hd. reflexivity.
Qed.


(** A control frame on the channel is handed to [handleSignal]. *)
Lemma dc_onmessage_control peerId raw w peer parsed :
  Map_get peerId (peers w) = Some peer ->
  JSON_parse E raw = Some parsed ->
  is_control (Some parsed) = true ->
  exec (dc_onmessage E peerId raw) w
  = exec (handleSignal E peerId (name peer)
            (JObj [("type"%string, JStr "key-exchange");
                   ("publicKey"%string, getProp "publicKey" parsed)])) w.
Proof.
  intros H Hp Hc. unfold dc_onmessage, exec. rewrite bind_eq.
  unfold peers_get at 1, gets at 1. cbn [fst snd]. rewrite H, Hp, Hc.
  rewrite bind_eq. reflexivity.
Qed.

(** After a successful key exchange the session holds the derived key, is
    marked encrypted and has an empty queue; one encryption event was
    emitted; whether or not the flush could send. *)
Lemma keyExchange_installs peerId peer publicKey w kp key :
  Map_get peerId (peers w) = Some peer ->
  myKeyPair w = Some kp ->
  completeKeyExchange E kp publicKey = Some key ->
  peers (exec (keyExchange E peerId peer publicKey) w)
    = Map_set peerId (encrypted_session key peer) (peers w)
  /\ events (exec (keyExchange E peerId peer publicKey) w)
     = events w ++ [peer_encrypted peerId (name peer)].
Proof.
  intros H Hkp Hd. rewrite (keyExchange_derived _ _ _ _ _ _ H Hkp Hd).
  set (w1 := set_events _ _).
  assert (H1 : Map_get peerId (peers w1)
               = Some (set_state "encrypted" (set_sharedKey (Some key) peer)))
    by apply Map_get_set.
  destruct (flush_keyed peerId (pendingMessages peer) w1 _ key H1 eq_refl) as (Hp & He).
  unfold exec at 1 3, assign, modify. cbn [snd peers events set_peers].
  rewrite Hp, He. split; [ | reflexivity].
  rewrite (Map_update_set _ _ _ _ H1). unfold w1. cbn [peers set_events set_console set_peers].
  rewrite Map_set_set. reflexivity.
Qed.

(** [handleSignal] on a key-exchange signal for a peer with a session. *)
Lemma handleSignal_key_exchange peerId fromName signal w peer :
  is_key_exchange signal ->
  Map_get peerId (peers w) = Some peer ->
  handleSignal E peerId fromName signal w
  = if truthy (getProp "publicKey" signal)
    then (Resolved, exec (keyExchange E peerId peer (getProp "publicKey" signal)) w)
    else (Resolved, w).
Proof.
  intros Ht H. unfold is_key_exchange in Ht.
  destruct signal; try (cbn in Ht; discriminate Ht).
  unfold handleSignal. rewrite Ht. cbn [strictEqStr String.eqb Ascii.eqb Bool.eqb].
  rewrite bind_eq. unfold peers_get at 1, gets at 1. cbn [fst snd]. rewrite H.
  destruct (truthy (getProp "publicKey" (JObj props))); reflexivity.
Qed.




(** C1, as the code has it. A key-exchange signal for a session that
    already holds a shared key is processed like the first one; no error
    is raised in any case. Without a public key in it, it changes nothing.
    When our key pair is missing or the derivation fails, the stored key,
    the table and the events are unchanged. When the derivation succeeds,
    the stored key is replaced by the key derived from this signal, the
    session is marked encrypted and its queue emptied, and one more
    encryption event is emitted. *)
Theorem key_exchange_replaces_key (peerId : PeerId) (fromName : string) (signal : json)
    (w : World) (peer : PeerState) (old : CryptoKey) :
  Map_get peerId (peers w) = Some peer ->
  sharedKey peer = Some old ->
  is_key_exchange signal ->
  result (handleSignal E peerId fromName signal) w = Resolved
  /\ (truthy (getProp "publicKey" signal) = false ->
      exec (handleSignal E peerId fromName signal) w = w)
  /\ (truthy (getProp "publicKey" signal) = true ->
      match myKeyPair w with
      | Some kp => completeKeyExchange E kp (getProp "publicKey" signal)
      | None => None
      end = None ->
      silent (exec (handleSignal E peerId fromName signal) w) = silent w)
  /\ (forall kp key,
        truthy (getProp "publicKey" signal) = true ->
        myKeyPair w = Some kp ->
        completeKeyExchange E kp (getProp "publicKey" signal) = Some key ->
        Map_get peerId (peers (exec (handleSignal E peerId fromName signal) w))
          = Some (encrypted_session key peer)
        /\ sharedKey (encrypted_session key peer) = Some key
        /\ events (exec (handleSignal E peerId fromName signal) w)
           = events w ++ [peer_encrypted peerId (name peer)]).
Proof.
  intros H Hold Ht. unfold result, exec.
  rewrite (handleSignal_key_exchange _ _ _ _ _ Ht H).
  split; [destruct (truthy _); reflexivity | ].
  split; [intros ->; reflexivity | ].
  split.
  - intros -> Hd. cbn [snd]. unfold exec. rewrite (keyExchange_fails _ _ _ _ Hd). reflexivity.
  - intros kp key -> Hkp Hd. cbn [snd].
    destruct (keyExchange_installs _ _ _ _ _ _ H Hkp Hd) as (Hp & He).
    rewrite Hp, He. split; [apply Map_get_set | split; reflexivity].
Qed.


End WithEnv.


(** C1 fails as stated. The session of bob already holds key 3 and its
    encryption was announced once. The same control frame delivered again
    is announced again; a control frame with another public key replaces
    the stored key. *)
Lemma duplicate_control_frame_is_processed :
  option_map sharedKey (Map_get "bob" (peers Demo.w_encrypted)) = Some (Some 3)
  /\ events Demo.w_encrypted
     = [peer_connected "bob" (Some "Bob"%string); peer_encrypted "bob" "Bob"]
  /\ events (exec (dc_onmessage Demo.env "bob" "kx1") Demo.w_encrypted)
     = [peer_connected "bob" (Some "Bob"%string); peer_encrypted "bob" "Bob";
        peer_encrypted "bob" "Bob"]
  /\ option_map sharedKey
       (Map_get "bob" (peers (exec (dc_onmessage Demo.env "bob" "kx2") Demo.w_encrypted)))
     = Some (Some 4).
Proof. repeat split. Qed.

Lemma key_exchange_replaces_key_witness :
  Map_get "bob" (peers Demo.w_encrypted)
    = Some {| connection := 0; dataChannel := Some 0; sharedKey := Some 3;
              name := "Bob"; state := "encrypted"; isInitiator := true;
              pendingMessages := [] |}
  /\ is_key_exchange (Demo.key_exchange 2)
  /\ completeKeyExchange Demo.env 2 (Demo.jwk 2) = Some 4
  /\ option_map sharedKey
       (Map_get "bob"
          (peers (exec (handleSignal Demo.env "bob" "Bob" (Demo.key_exchange 2))
                    Demo.w_encrypted)))
     = Some (Some 4).
Proof.
  split; [reflexivity | ]. split; [reflexivity | ]. split; [reflexivity | ].
  destruct (key_exchange_replaces_key Demo.env "bob" "Bob" (Demo.key_exchange 2)
              Demo.w_encrypted _ 3 eq_refl eq_refl eq_refl) as (_ & _ & _ & Hok).
  destruct (Hok 2 4 eq_refl eq_refl eq_refl) as (Hp & _ & _).
  rewrite Hp. reflexivity.
Defined.



End KeyExchangeFacts.

(** ** Broadcast *)

Module BroadcastFacts.

Import MorphRTC MapFacts Blind SendFacts KeyExchangeFacts.

Section WithEnv.

Variable E : Env.









End WithEnv.





End BroadcastFacts.

(** ** The signaling client over its whole life *)

Module SignalingLife.

Import MorphSignaling SignalingFacts.

Lemma client_run_cons e evs s : client_run (e :: evs) s = client_run evs (client_event e s).
Proof. reflexivity. Qed.

Lemma ws_onclose_timers s :
  reconnectAttempts (ws_onclose s) <= Nat.max (reconnectAttempts s) MAX_RECONNECT
  /\ exists added,
       timers (ws_onclose s) = timers s ++ added
       /\ Forall (fun t => snd t = RECONNECT_DELAY) added.
Proof.
  destruct (Nat.le_gt_cases MAX_RECONNECT (reconnectAttempts s)) as [H | H].
  - destruct (ws_onclose_exhausted s H) as (Ha & Ht & _). split; [lia | ].
    exists []. rewrite app_nil_r. split; [exact Ht | constructor].
  - destruct (ws_onclose_below s H) as (Ha & Ht & _). split; [lia | ].
    exists [(length (timers s), RECONNECT_DELAY)]. split; [exact Ht | ].
    repeat constructor.
Qed.

Lemma client_event_bounded e s :
  reconnectAttempts s <= MAX_RECONNECT ->
  Forall (fun t => snd t = RECONNECT_DELAY) (timers s) ->
  reconnectAttempts (client_event e s) <= MAX_RECONNECT
  /\ Forall (fun t => snd t = RECONNECT_DELAY) (timers (client_event e s)).
Proof.
  intros Ha Hd. destruct e as [[ | | ] | | ]; cbn [client_event socket_event].
  - destruct (ws_onclose_timers s) as (Hle & added & Ht & Hadd). split; [lia | ].
    rewrite Ht. apply Forall_app. split; assumption.
  - split; assumption.
  - split; assumption.
  - split; [cbn; lia | exact Hd].
  - split; [cbn; lia | ].
    unfold disconnect, clearTimeout. destruct (reconnectTimer s); exact Hd.
Qed.

(** X1. Over the whole life of the signaling client, whatever the order
    of socket closes, errors, timers, successful opens and calls of
    [disconnect()], the attempt counter never exceeds [MAX_RECONNECT] and
    every reconnection ever scheduled is at the delay [RECONNECT_DELAY]. *)
Theorem reconnect_counter_never_exceeds_bound (evs : list ClientEvent) :
  reconnectAttempts (client_run evs initial) <= MAX_RECONNECT
  /\ Forall (fun t => snd t = RECONNECT_DELAY) (timers (client_run evs initial)).
Proof.
  assert (H : forall s,
             reconnectAttempts s <= MAX_RECONNECT ->
             Forall (fun t => snd t = RECONNECT_DELAY) (timers s) ->
             reconnectAttempts (client_run evs s) <= MAX_RECONNECT
             /\ Forall (fun t => snd t = RECONNECT_DELAY) (timers (client_run evs s))).
  { induction evs as [| e evs IH]; intros s Ha Hd; [split; assumption | ].
    rewrite client_run_cons.
    destruct (client_event_bounded e s Ha Hd) as (Ha' & Hd'). exact (IH _ Ha' Hd'). }
  apply H; [cbn; lia | constructor].
Qed.

(** X2. A connection that reaches [onopen] gives the client its full
    budget back, whatever happened before: from the state [onopen]
    leaves, the socket losses that follow schedule as many reconnections
    as there are losses, up to five, and the counter stands at that
    number. So the bound of five holds per outage, not per session. *)
Theorem onopen_restores_reconnect_budget (s : State) (evs : list SocketEvent) :
  reconnectAttempts (ws_onopen s) = 0
  /\ reconnectAttempts (run evs (ws_onopen s)) = Nat.min (losses evs) MAX_RECONNECT
  /\ exists added,
       timers (run evs (ws_onopen s)) = timers s ++ added
       /\ length added = Nat.min (losses evs) MAX_RECONNECT.
Proof.
  split; [reflexivity | ].
  assert (H0 : reconnectAttempts (ws_onopen s) <= MAX_RECONNECT) by exact (Nat.le_0_l _).
  destruct (run_from evs (ws_onopen s) H0) as (Ha & (added & Ht & Hl & _) & _).
  change (reconnectAttempts (ws_onopen s)) with 0 in Ha, Hl.
  change (timers (ws_onopen s)) with (timers s) in Ht.
  rewrite Nat.sub_0_r in Hl. cbn [Nat.add] in Ha.
  split; [exact Ha | ].
  exists added. split; [exact Ht | exact Hl].
Qed.

(** X3. [disconnect()] cancels the pending reconnection timer and stops
    the automatic reconnection: no socket event after it schedules a
    timer. The close of the socket that follows is reported like an
    exhausted reconnection, with the statuses [disconnected] and then
    [failed]. *)
Theorem disconnect_stops_reconnection (s : State) (evs : list SocketEvent) :
  timers (run evs (disconnect s)) = timers s
  /\ (forall id, reconnectTimer s = Some id -> In id (cleared (disconnect s)))
  /\ statuses (ws_onclose (disconnect s))
     = statuses s ++ [st_disconnected; st_failed "Max reconnection attempts reached"].
Proof.
  assert (Hmax : MAX_RECONNECT <= reconnectAttempts (disconnect s))
    by exact (Nat.le_refl _).
  assert (Hkeep : timers (disconnect s) = timers s /\ statuses (disconnect s) = statuses s)
    by (unfold disconnect, clearTimeout; destruct (reconnectTimer s); split; reflexivity).
  destruct Hkeep as (Ht & Hs).
  split; [rewrite (proj2 (run_exhausted evs _ Hmax)); exact Ht | ].
  split.
  - intros id Hid. unfold disconnect, clearTimeout. rewrite Hid. cbn.
    apply in_or_app. right. left. reflexivity.
  - destruct (ws_onclose_exhausted _ Hmax) as (_ & _ & _ & Hst). rewrite Hst, Hs.
    reflexivity.
Qed.

Lemma disconnect_stops_reconnection_witness :
  reconnectTimer (run [ev_close] initial) = Some 0
  /\ In 0 (cleared (disconnect (run [ev_close] initial))).
Proof.
  split; [reflexivity | ].
  exact (proj1 (proj2 (disconnect_stops_reconnection (run [ev_close] initial) [])) 0 eq_refl).
Defined.

End SignalingLife.

(** ** Invariants of the mesh manager *)

Module Invariants.

Import MorphRTC MapFacts Blind TeardownFacts SendFacts KeyExchangeFacts.

(** *** Preservation, compositionally *)

Lemma exec_bind {A B} (c : M A) (k : A -> M B) w :
  exec (bind c k) w = exec (k (result c w)) (exec c w).
Proof. reflexivity. Qed.

Lemma preserves_ret I {A} (a : A) : preserves I (ret a).
Proof. intros w H. exact H. Qed.

Lemma preserves_bind I {A B} (c : M A) (k : A -> M B) :
  preserves I c -> (forall a, preserves I (k a)) -> preserves I (bind c k).
Proof. intros Hc Hk w H. rewrite exec_bind. apply Hk. apply Hc. exact H. Qed.

Lemma preserves_gets I {A} (f : World -> A) : preserves I (gets f).
Proof. intros w H. exact H. Qed.

Lemma preserves_forEach I {A} (l : list A) (body : A -> M unit) :
  (forall a, preserves I (body a)) -> preserves I (forEach l body).
Proof.
  intros Hb. induction l as [| a l IH]; cbn [forEach].
  - apply preserves_ret.
  - apply preserves_bind; [apply Hb | intros _; exact IH].
Qed.

Lemma preserves_collect I {A B} (l : list A) (body : A -> M B) :
  (forall a, preserves I (body a)) -> preserves I (collect l body).
Proof.
  intros Hb. induction l as [| a l IH]; cbn [collect].
  - apply preserves_ret.
  - apply preserves_bind; [apply Hb | intros r].
    apply preserves_bind; [exact IH | intros rs; apply preserves_ret].
Qed.

Lemma perform_all_app h1 h2 E w :
  perform_all E (h1 ++ h2) w = perform_all E h2 (perform_all E h1 w).
Proof. unfold perform_all. apply fold_left_app. Qed.

(** An invariant of every action holds after every history. *)
Lemma invariant_of_histories E (I : World -> Prop) :
  I initial -> (forall a w, I w -> I (perform E a w)) ->
  forall history, I (perform_all E history initial).
Proof.
  intros H0 Hstep history. unfold perform_all.
  generalize initial H0. induction history as [| a history IH]; intros w H; [exact H | ].
  cbn [fold_left]. apply IH. apply Hstep. exact H.
Qed.

Create HintDb preserve.

(** Follows the syntax of a computation down to the hinted pieces. *)
Create HintDb preserve_shape.

Ltac preserve :=
  repeat match goal with
         | |- preserves _ (bind new_RTCPeerConnection _) =>
             solve [auto with preserve_shape nocore]
         | |- preserves _ (ret _) => apply preserves_ret
         | |- preserves _ (bind _ _) => apply preserves_bind; [ | intros ? ]
         | |- preserves _ (gets _) => apply preserves_gets
         | |- preserves _ (forEach _ _) => apply preserves_forEach; intros ?
         | |- preserves _ (collect _ _) => apply preserves_collect; intros ?
         | |- preserves _ (match ?x with _ => _ end) => destruct x
         | |- preserves _ _ => solve [eauto with preserve nocore]
         end.

(** *** The primitives that leave the table alone *)

Lemma keeps_peers_console_write l line : keeps_peers (console_write l line).
Proof. intros w. reflexivity. Qed.

Lemma keeps_peers_emit e : keeps_peers (emit e).
Proof. intros w. reflexivity. Qed.

Lemma keeps_peers_sendSignal target signal : keeps_peers (sendSignal target signal).
Proof. intros w. reflexivity. Qed.

Lemma keeps_peers_connection_close pc : keeps_peers (connection_close pc).
Proof. intros w. reflexivity. Qed.

Lemma keeps_peers_new_RTCPeerConnection : keeps_peers new_RTCPeerConnection.
Proof. intros w. reflexivity. Qed.

Lemma keeps_peers_createDataChannel : keeps_peers createDataChannel.
Proof. intros w. reflexivity. Qed.

Lemma keeps_peers_MorphCrypto_encrypt E key plaintext :
  keeps_peers (MorphCrypto_encrypt E key plaintext).
Proof. intros w. reflexivity. Qed.

Lemma keeps_peers_dataChannel_send E dc frame : keeps_peers (dataChannel_send E dc frame).
Proof.
  intros w. unfold exec, dataChannel_send.
  destruct (is_open (readyState dc w) && channel_accepts E dc frame); reflexivity.
Qed.

Lemma keeps_peers_modify_keys kp jwk : keeps_peers (modify (set_keys kp jwk)).
Proof. intros w. reflexivity. Qed.

#[export] Hint Resolve keeps_peers_console_write keeps_peers_emit keeps_peers_sendSignal
  keeps_peers_connection_close keeps_peers_new_RTCPeerConnection
  keeps_peers_createDataChannel keeps_peers_MorphCrypto_encrypt
  keeps_peers_dataChannel_send keeps_peers_modify_keys : preserve.

(** *** The table invariant *)

Lemma Map_wf_set k v m : Map_wf m -> Map_wf (Map_set k v m).
Proof.
  unfold Map_wf, Map_keys. intros H.
  destruct (Map_get k m) as [p |] eqn:Hget.
  - pose proof (Map_keys_set k v p m Hget) as Hk. unfold Map_keys in Hk.
    rewrite Hk. exact H.
  - assert (Hset : Map_set k v m = m ++ [(k, v)]).
    { clear H. induction m as [| [k' v'] m IH]; cbn in *; [reflexivity | ].
      destruct (String.eqb k k'); [discriminate | ]. rewrite (IH Hget). reflexivity. }
    rewrite Hset, map_app. cbn.
    apply NoDup_app; [exact H | repeat constructor; intros [] | ].
    intros a Ha [Heq | []]. subst a.
    assert (Hin : exists v0, In (k, v0) m).
    { apply in_map_iff in Ha. destruct Ha as ([a' v0] & Heq & Hin). cbn in Heq. subst.
      exists v0. exact Hin. }
    destruct Hin as (v0 & Hin).
    rewrite (In_Map_get k v0 m H Hin) in Hget. discriminate.
Qed.

Lemma Map_wf_update k f m : Map_wf m -> Map_wf (Map_update k f m).
Proof. unfold Map_wf. rewrite Map_keys_update. exact (fun H => H). Qed.

Lemma Map_wf_delete k m : Map_wf m -> Map_wf (Map_delete k m).
Proof.
  unfold Map_wf, Map_keys, Map_delete. induction m as [| [k' v] m IH]; cbn; intros H.
  - constructor.
  - inversion H as [| ? ? Hnotin H']; subst.
    destruct (String.eqb k k'); cbn; [exact (IH H') | ].
    constructor; [ | exact (IH H')].
    intros Hin. apply Hnotin. apply in_map_iff in Hin.
    destruct Hin as (e & He & Hin). apply filter_In in Hin.
    apply in_map_iff. exists e. split; [exact He | exact (proj1 Hin)].
Qed.

Lemma Map_get_delete_Some k k' p m :
  Map_get k' (Map_delete k m) = Some p -> Map_get k' m = Some p.
Proof.
  destruct (String.eqb k k') eqn:Hk.
  - apply String.eqb_eq in Hk. subst. rewrite Map_get_delete. discriminate.
  - apply String.eqb_neq in Hk. rewrite (Map_get_delete_other _ _ _ Hk). exact (fun H => H).
Qed.

Lemma table_ok_ext w w' : peers w' = peers w -> table_ok w -> table_ok w'.
Proof. unfold table_ok. intros ->. exact (fun H => H). Qed.

Lemma keeps_peers_table_ok {A} (c : M A) : keeps_peers c -> preserves table_ok c.
Proof. intros Hc w H. exact (table_ok_ext _ _ (Hc w) H). Qed.

Lemma table_ok_peers_set peerId p :
  session_ok p -> preserves table_ok (peers_set peerId p).
Proof.
  intros Hp w (Hwf & Hok). split; cbn.
  - apply Map_wf_set. exact Hwf.
  - intros k q. destruct (String.eqb peerId k) eqn:Hk.
    + apply String.eqb_eq in Hk. subst. rewrite Map_get_set. intros [= <-]. exact Hp.
    + apply String.eqb_neq in Hk. rewrite (Map_get_set_other _ _ _ _ Hk). apply Hok.
Qed.

Lemma table_ok_assign peerId f :
  (forall p, session_ok p -> session_ok (f p)) -> preserves table_ok (assign peerId f).
Proof.
  intros Hf w (Hwf & Hok). split; cbn.
  - apply Map_wf_update. exact Hwf.
  - intros k q. destruct (String.eqb peerId k) eqn:Hk.
    + apply String.eqb_eq in Hk. subst. rewrite Map_get_update.
      destruct (Map_get k (peers w)) as [p |] eqn:Hget; cbn; [ | discriminate].
      intros [= <-]. apply Hf. exact (Hok _ _ Hget).
    + apply String.eqb_neq in Hk. rewrite (Map_get_update_other _ _ _ _ Hk). apply Hok.
Qed.

Lemma table_ok_peers_delete peerId : preserves table_ok (peers_delete peerId).
Proof.
  intros w (Hwf & Hok). split; cbn.
  - apply Map_wf_delete. exact Hwf.
  - intros k q Hq. exact (Hok _ _ (Map_get_delete_Some _ _ _ _ Hq)).
Qed.

Lemma table_ok_peers_clear : preserves table_ok peers_clear.
Proof. intros w _. split; cbn; [constructor | discriminate]. Qed.

Lemma session_ok_fresh pc dc peerName ini :
  session_ok {| connection := pc; dataChannel := dc; sharedKey := None; name := peerName;
                state := "connecting"; isInitiator := ini; pendingMessages := [] |}.
Proof. repeat split; cbn; auto; try discriminate; congruence. Qed.

Lemma session_ok_set_state_open p : session_ok p -> session_ok (set_state "open" p).
Proof.
  intros (_ & _ & Hq). repeat split; cbn; auto. discriminate.
Qed.

Lemma session_ok_set_dataChannel dc p : session_ok p -> session_ok (set_dataChannel dc p).
Proof. intros H. exact H. Qed.

Lemma session_ok_encrypted key p : session_ok (encrypted_session key p).
Proof. repeat split; cbn; auto. discriminate. Qed.

#[export] Hint Resolve keeps_peers_table_ok table_ok_peers_set table_ok_assign
  table_ok_peers_delete table_ok_peers_clear session_ok_fresh session_ok_set_state_open
  session_ok_set_dataChannel : preserve.

Lemma table_ok_handlePeerDisconnect peerId : preserves table_ok (handlePeerDisconnect peerId).
Proof. unfold handlePeerDisconnect. preserve. Qed.

Lemma table_ok_sendToPeer E peerId msg : preserves table_ok (sendToPeer E peerId msg).
Proof.
  intros w H. destruct (Map_get peerId (peers w)) as [p |] eqn:Hget.
  - destruct (sharedKey p) as [key |] eqn:Hk.
    + apply (table_ok_ext w); [ | exact H].
      exact (proj1 (sendToPeer_keyed E peerId msg w p key Hget Hk)).
    + unfold exec. rewrite (sendToPeer_queues E _ _ _ _ Hget Hk). cbn [snd].
      apply (table_ok_peers_set peerId (push_pending msg p)); [ | exact H].
      destruct (proj2 H _ _ Hget) as (Hs & He & _).
      repeat split; cbn; auto. rewrite Hk. congruence.
  - unfold exec. rewrite (sendToPeer_absent E _ _ _ Hget). exact H.
Qed.

#[export] Hint Resolve table_ok_handlePeerDisconnect table_ok_sendToPeer : preserve.

(** What a key exchange leaves in the table, whatever session object it
    was started with: nothing new when the derivation fails, and else the
    entry of the peer, if there is one, with the derived key, marked
    encrypted, its queue emptied. *)
Lemma keyExchange_peers E peerId peer publicKey w :
  peers (exec (keyExchange E peerId peer publicKey) w) = peers w
  \/ exists key,
       derived E key
       /\ peers (exec (keyExchange E peerId peer publicKey) w)
          = Map_update peerId (encrypted_session key) (peers w).
Proof.
  destruct (match myKeyPair w with
            | Some kp => completeKeyExchange E kp publicKey
            | None => None
            end) as [key |] eqn:Hd.
  - right. exists key.
    destruct (myKeyPair w) as [kp |] eqn:Hkp; [ | discriminate].
    split; [exists kp, publicKey; exact Hd | ].
    rewrite (keyExchange_steps E _ _ _ _ _ _ Hkp Hd).
    set (w1 := set_events _ _).
    assert (Hflush : peers (exec (flush E peerId (pendingMessages peer)) w1) = peers w1).
    { destruct (Map_get peerId (peers w1)) as [p1 |] eqn:H1.
      - assert (Hk1 : sharedKey p1 = Some key).
        { unfold w1 in H1. cbn [peers set_events set_console set_peers] in H1.
          rewrite Map_update_update, Map_get_update in H1.
          destruct (Map_get peerId (peers w)); cbn in H1; [ | discriminate].
          injection H1 as <-. reflexivity. }
        exact (proj1 (flush_keyed E peerId _ w1 p1 key H1 Hk1)).
      - unfold exec, flush. rewrite (flush_absent E peerId _ w1 H1). reflexivity. }
    unfold exec at 1, assign, modify. cbn [snd peers set_peers]. rewrite Hflush.
    unfold w1. cbn [peers set_events set_console set_peers].
    rewrite !Map_update_update. reflexivity.
  - left. unfold exec. rewrite (keyExchange_fails E _ _ _ _ Hd). reflexivity.
Qed.

Lemma table_ok_keyExchange E peerId peer publicKey :
  preserves table_ok (keyExchange E peerId peer publicKey).
Proof.
  intros w H.
  destruct (keyExchange_peers E peerId peer publicKey w) as [Hp | (key & _ & Hp)].
  - exact (table_ok_ext _ _ Hp H).
  - pose proof (table_ok_assign peerId (encrypted_session key)
                  (fun p _ => session_ok_encrypted key p) w H) as H'.
    unfold table_ok in *. rewrite Hp. exact H'.
Qed.

#[export] Hint Resolve table_ok_keyExchange : preserve.

Lemma table_ok_handleSignal E peerId peerName signal :
  preserves table_ok (handleSignal E peerId peerName signal).
Proof. unfold handleSignal. preserve. Qed.

#[export] Hint Resolve table_ok_handleSignal : preserve.

Lemma table_ok_perform E a : forall w, table_ok w -> table_ok (perform E a w).
Proof.
  destruct a; cbn [perform];
    try (match goal with |- forall w, table_ok w -> table_ok (exec ?c w) =>
           change (preserves table_ok c) end;
         unfold init, connectToPeer, broadcast, disconnectPeer, disconnectAll,
           pc_onicecandidate, pc_oniceconnectionstatechange, channel_arrives,
           pc_ondatachannel, dc_onopen, dc_onmessage, dc_onclose, dc_onerror;
         preserve).
  intros w H. unfold browser_sets_readyState.
  destruct (Nat.ltb dc (length (readyStates w))); exact H.
Qed.

Lemma table_ok_always E history : table_ok (perform_all E history initial).
Proof.
  apply invariant_of_histories; [ | apply table_ok_perform].
  split; [constructor | discriminate].
Qed.

Lemma roster_of_table w info :
  In info (getPeerList w) ->
  exists p, In (id info, p) (peers w)
            /\ info_state info = state p /\ encrypted info = is_set (sharedKey p).
Proof.
  unfold getPeerList. intros Hin. apply in_map_iff in Hin.
  destruct Hin as ([k p] & <- & Hin). exists p. repeat split. exact Hin.
Qed.

(** X4. After any history of calls, handler runs and channel state
    changes, starting from the module as loaded, every session in the
    table is in one of the states [connecting], [open], [encrypted], and a
    session in state [encrypted] holds a shared key; so a roster entry
    whose state is [encrypted] has its [encrypted] flag set, and the
    roster lists no peer id twice. *)
Theorem encrypted_state_means_key (E : Env) (history : list Action)
    (peerId : PeerId) (p : PeerState) :
  Map_get peerId (peers (perform_all E history initial)) = Some p ->
  (state p = "connecting"%string \/ state p = "open"%string \/ state p = "encrypted"%string)
  /\ (state p = "encrypted"%string -> exists key, sharedKey p = Some key)
  /\ (forall info,
        In info (getPeerList (perform_all E history initial)) ->
        info_state info = "encrypted"%string -> encrypted info = true)
  /\ NoDup (map id (getPeerList (perform_all E history initial))).
Proof.
  intros Hget. destruct (table_ok_always E history) as (Hwf & Hok).
  destruct (Hok _ _ Hget) as (Hs & He & _).
  split; [exact Hs | ].
  split.
  { intros Henc. destruct (sharedKey p) as [key |] eqn:Hk; [exists key; reflexivity | ].
    exfalso. exact (He Henc eq_refl). }
  split.
  - intros info Hin Hst.
    destruct (roster_of_table _ _ Hin) as (q & Hq & Hstate & Hflag).
    destruct (Hok _ _ (In_Map_get _ _ _ Hwf Hq)) as (_ & Heq & _).
    rewrite Hflag. destruct (sharedKey q); [reflexivity | ].
    exfalso. apply Heq; [congruence | reflexivity].
  - unfold getPeerList. rewrite map_map. cbn. exact Hwf.
Qed.

Lemma encrypted_state_means_key_witness :
  Map_get "bob" (peers (perform_all Demo.env Demo.history initial))
    = Some {| connection := 0; dataChannel := Some 0; sharedKey := Some 3;
              name := "Bob"; state := "encrypted"; isInitiator := true;
              pendingMessages := [] |}
  /\ NoDup (map id (getPeerList (perform_all Demo.env Demo.history initial))).
Proof.
  assert (H : Map_get "bob" (peers (perform_all Demo.env Demo.history initial))
              = Some {| connection := 0; dataChannel := Some 0; sharedKey := Some 3;
                        name := "Bob"; state := "encrypted"; isInitiator := true;
                        pendingMessages := [] |})
    by (vm_compute; reflexivity).
  split; [exact H | ].
  exact (proj2 (proj2 (proj2 (encrypted_state_means_key Demo.env Demo.history "bob" _ H)))).
Defined.



(** *** The connections *)

Lemma connections_ok_ext w w' :
  peers w' = peers w -> closed w' = closed w -> connections w' = connections w ->
  connections_ok w -> connections_ok w'.
Proof.
  unfold connections_ok, live_connections. intros -> -> ->. exact (fun H => H).
Qed.

Lemma keeps_connections_ok {A} (c : M A) :
  keeps_connections c -> preserves connections_ok c.
Proof.
  intros Hc w H. destruct (Hc w) as (Hp & Hcl & Hn).
  exact (connections_ok_ext _ _ Hp Hcl Hn H).
Qed.

Lemma keeps_connections_console_write l line : keeps_connections (console_write l line).
Proof. intros w. repeat split. Qed.

Lemma keeps_connections_emit e : keeps_connections (emit e).
Proof. intros w. repeat split. Qed.

Lemma keeps_connections_sendSignal target signal :
  keeps_connections (sendSignal target signal).
Proof. intros w. repeat split. Qed.

Lemma keeps_connections_createDataChannel : keeps_connections createDataChannel.
Proof. intros w. repeat split. Qed.

Lemma keeps_connections_MorphCrypto_encrypt E key plaintext :
  keeps_connections (MorphCrypto_encrypt E key plaintext).
Proof. intros w. repeat split. Qed.

Lemma keeps_connections_dataChannel_send E dc frame :
  keeps_connections (dataChannel_send E dc frame).
Proof.
  intros w. unfold exec, dataChannel_send.
  destruct (is_open (readyState dc w) && channel_accepts E dc frame); repeat split.
Qed.

Lemma keeps_connections_modify_keys kp jwk : keeps_connections (modify (set_keys kp jwk)).
Proof. intros w. repeat split. Qed.

Lemma live_connections_update k f m :
  (forall p, connection (f p) = connection p) ->
  map (fun e => connection (snd e)) (Map_update k f m)
  = map (fun e => connection (snd e)) m.
Proof.
  intros Hf. induction m as [| [k' v] m IH]; cbn; [reflexivity | ].
  destruct (String.eqb k k'); cbn; [rewrite Hf; reflexivity | rewrite IH; reflexivity].
Qed.

Lemma connections_ok_assign peerId f :
  (forall p, connection (f p) = connection p) ->
  preserves connections_ok (assign peerId f).
Proof.
  intros Hf w H. unfold connections_ok, live_connections in *. cbn.
  rewrite (live_connections_update _ _ _ Hf). exact H.
Qed.

Lemma live_connections_delete k m pc :
  In pc (map (fun e => connection (snd e)) (Map_delete k m)) ->
  In pc (map (fun e => connection (snd e)) m).
Proof.
  intros Hin. apply in_map_iff in Hin. destruct Hin as (e & He & Hin).
  apply filter_In in Hin. apply in_map_iff. exists e. split; [exact He | exact (proj1 Hin)].
Qed.

Lemma NoDup_live_delete k m :
  NoDup (map (fun e => connection (snd e)) m) ->
  NoDup (map (fun e => connection (snd e)) (Map_delete k m)).
Proof.
  induction m as [| [k' v] m IH]; cbn; intros H; [constructor | ].
  inversion H as [| ? ? Hnotin H']; subst.
  destruct (String.eqb k k'); cbn; [exact (IH H') | ].
  constructor; [ | exact (IH H')].
  intros Hin. apply Hnotin. exact (live_connections_delete _ _ _ Hin).
Qed.

(** The connection of the session being removed is not the connection of
    any session that stays. *)
Lemma removed_connection_is_gone k m peer pc :
  NoDup (map (fun e => connection (snd e)) m) ->
  Map_get k m = Some peer ->
  In pc (map (fun e => connection (snd e)) (Map_delete k m)) ->
  pc <> connection peer.
Proof.
  induction m as [| [k' v] m IH]; cbn; [discriminate | ].
  intros H Hget Hin. inversion H as [| ? ? Hnotin H']; subst.
  destruct (String.eqb k k') eqn:Hk; cbn in Hin.
  - injection Hget as <-. intros ->. apply Hnotin.
    exact (live_connections_delete _ _ _ Hin).
  - destruct Hin as [<- | Hin].
    + intros Heq. apply Hnotin. rewrite Heq.
      apply in_map_iff. exists (k, peer). split; [reflexivity | ].
      exact (Map_get_In _ _ _ Hget).
    + exact (IH H' Hget Hin).
Qed.

Lemma connections_ok_peers_delete peerId : preserves connections_ok (peers_delete peerId).
Proof.
  intros w (Hc & Hl & Hlive & Hclosed). unfold connections_ok, live_connections in *. cbn.
  split; [exact Hc | ]. split; [apply NoDup_live_delete; exact Hl | ].
  split; [ | exact Hclosed].
  intros pc Hin. apply Hlive. exact (live_connections_delete _ _ _ Hin).
Qed.

Lemma connections_ok_peers_clear : preserves connections_ok peers_clear.
Proof.
  intros w (Hc & _ & _ & Hclosed). unfold connections_ok, live_connections. cbn.
  split; [exact Hc | ]. split; [constructor | ]. split; [intros pc [] | exact Hclosed].
Qed.

Lemma connections_ok_handlePeerDisconnect peerId :
  preserves connections_ok (handlePeerDisconnect peerId).
Proof.
  intros w H. unfold exec.
  destruct (Map_get peerId (peers w)) as [peer |] eqn:Hget.
  - rewrite (handlePeerDisconnect_present _ _ _ Hget). cbn [snd].
    destruct H as (Hc & Hl & Hlive & Hclosed).
    unfold connections_ok, live_connections in *. cbn.
    assert (Hin : In (connection peer) (map (fun e => connection (snd e)) (peers w))).
    { apply in_map_iff. exists (peerId, peer). split; [reflexivity | ].
      exact (Map_get_In _ _ _ Hget). }
    destruct (Hlive _ Hin) as (Hlt & Hnot).
    split.
    { apply NoDup_app; [exact Hc | repeat constructor; intros [] | ].
      intros a Ha [Heq | []]. subst a. exact (Hnot Ha). }
    split; [apply NoDup_live_delete; exact Hl | ].
    split.
    + intros pc Hpc. destruct (Hlive _ (live_connections_delete _ _ _ Hpc)) as (Hlt' & Hnot').
      split; [exact Hlt' | ]. intros Hc'. apply in_app_or in Hc'.
      destruct Hc' as [Hc' | [Heq | []]]; [exact (Hnot' Hc') | ].
      exact (removed_connection_is_gone _ _ _ _ Hl Hget Hpc (eq_sym Heq)).
    + intros pc Hpc. apply in_app_or in Hpc.
      destruct Hpc as [Hpc | [<- | []]]; [exact (Hclosed _ Hpc) | exact Hlt].
  - rewrite (handlePeerDisconnect_absent _ _ Hget). exact H.
Qed.

(** A new session around a connection just made. *)
Lemma live_connections_set k p m :
  NoDup (map (fun e => connection (snd e)) m) ->
  ~ In (connection p) (map (fun e => connection (snd e)) m) ->
  NoDup (map (fun e => connection (snd e)) (Map_set k p m))
  /\ forall pc, In pc (map (fun e => connection (snd e)) (Map_set k p m)) ->
                pc = connection p \/ In pc (map (fun e => connection (snd e)) m).
Proof.
  induction m as [| [k' v] m IH]; cbn; intros H Hnew.
  - split; [repeat constructor; intros [] | intros pc [<- | []]; left; reflexivity].
  - inversion H as [| ? ? Hnotin H']; subst.
    destruct (String.eqb k k'); cbn.
    + split.
      * constructor; [ | exact H']. intros Hin. apply Hnew. right. exact Hin.
      * intros pc [<- | Hin]; [left; reflexivity | right; right; exact Hin].
    + destruct (IH H') as (Hnd & Hsub); [intros Hin; apply Hnew; right; exact Hin | ].
      split.
      * constructor; [ | exact Hnd]. intros Hin.
        destruct (Hsub _ Hin) as [Heq | Hin']; [ | exact (Hnotin Hin')].
        apply Hnew. left. exact Heq.
      * intros pc [<- | Hin]; [right; left; reflexivity | ].
        destruct (Hsub _ Hin) as [Heq | Hin']; [left; exact Heq | right; right; exact Hin'].
Qed.

Lemma connections_ok_new_session w w' peerId p :
  connections_ok w ->
  closed w' = closed w -> connections w' = S (connections w) ->
  peers w' = Map_set peerId p (peers w) -> connection p = connections w ->
  connections_ok w'.
Proof.
  intros (Hc & Hl & Hlive & Hclosed) Hcl Hn Hp Hpc.
  unfold connections_ok, live_connections in *. rewrite Hcl, Hn, Hp.
  assert (Hnew : ~ In (connection p) (map (fun e => connection (snd e)) (peers w))).
  { intros Hin. destruct (Hlive _ Hin) as (Hlt & _). lia. }
  destruct (live_connections_set peerId p (peers w) Hl Hnew) as (Hnd & Hsub).
  split; [exact Hc | ]. split; [exact Hnd | ].
  split.
  - intros pc Hin. destruct (Hsub _ Hin) as [-> | Hin'].
    + split; [lia | ]. intros Hin'. pose proof (Hclosed _ Hin'). lia.
    + destruct (Hlive _ Hin') as (Hlt & Hnot). split; [lia | exact Hnot].
  - intros pc Hin. pose proof (Hclosed _ Hin). lia.
Qed.

#[export] Hint Resolve keeps_connections_ok keeps_connections_console_write
  keeps_connections_emit keeps_connections_sendSignal keeps_connections_createDataChannel
  keeps_connections_MorphCrypto_encrypt keeps_connections_dataChannel_send
  keeps_connections_modify_keys connections_ok_assign connections_ok_peers_delete
  connections_ok_peers_clear connections_ok_handlePeerDisconnect : preserve.

#[export] Hint Extern 1 (_ = _) => reflexivity : preserve.

Lemma connections_ok_sendToPeer E peerId msg :
  preserves connections_ok (sendToPeer E peerId msg).
Proof. unfold sendToPeer. preserve. Qed.

#[export] Hint Resolve connections_ok_sendToPeer : preserve.

Lemma connections_ok_keyExchange E peerId peer publicKey :
  preserves connections_ok (keyExchange E peerId peer publicKey).
Proof. unfold keyExchange. preserve. Qed.

#[export] Hint Resolve connections_ok_keyExchange : preserve.

(** [handleSignal] on an offer: a connection is made and a session put
    around it. *)
Lemma connections_ok_offer E peerId peerName signal :
  preserves connections_ok
    (pc <- new_RTCPeerConnection ;;
     peers_set peerId
       {| connection := pc; dataChannel := None; sharedKey := None;
          name := peerName; state := "connecting"; isInitiator := false;
          pendingMessages := [] |} ;;
     match negotiate_answer E pc (getProp "sdp" signal) with
     | Some localDescription =>
         sendSignal peerId
           (JObj [("type"%string, JStr "answer"); ("sdp"%string, localDescription)]) ;;
         ret Resolved
     | None => ret Rejected
     end).
Proof.
  intros w H. rewrite !exec_bind.
  set (w1 := exec (peers_set peerId _) (exec new_RTCPeerConnection w)).
  assert (H1 : connections_ok w1)
    by (eapply (connections_ok_new_session w w1 peerId); [exact H | reflexivity ..]).
  match goal with
  | |- connections_ok (exec ?c w1) =>
      assert (Hc : preserves connections_ok c) by preserve; exact (Hc w1 H1)
  end.
Qed.

Lemma connections_ok_connectToPeer E peerId peerName :
  preserves connections_ok (connectToPeer E peerId peerName).
Proof.
  intros w H. unfold connectToPeer. rewrite !exec_bind.
  set (w1 := exec (peers_set peerId _) _).
  assert (H1 : connections_ok w1)
    by (eapply (connections_ok_new_session w w1 peerId); [exact H | reflexivity ..]).
  match goal with
  | |- connections_ok (exec ?c w1) =>
      assert (Hc : preserves connections_ok c) by preserve; exact (Hc w1 H1)
  end.
Qed.

#[export] Hint Resolve connections_ok_offer : preserve_shape.

#[export] Hint Resolve connections_ok_connectToPeer : preserve.

Lemma connections_ok_handleSignal E peerId peerName signal :
  preserves connections_ok (handleSignal E peerId peerName signal).
Proof. unfold handleSignal. preserve. Qed.

#[export] Hint Resolve connections_ok_handleSignal : preserve.

Lemma connections_ok_perform E a : forall w, connections_ok w -> connections_ok (perform E a w).
Proof.
  destruct a; cbn [perform];
    try (match goal with |- forall w, connections_ok w -> connections_ok (exec ?c w) =>
           change (preserves connections_ok c) end;
         try apply connections_ok_connectToPeer;
         unfold init, broadcast, disconnectPeer, disconnectAll,
           pc_onicecandidate, pc_oniceconnectionstatechange, channel_arrives,
           pc_ondatachannel, dc_onopen, dc_onmessage, dc_onclose, dc_onerror;
         preserve).
  intros w H. unfold browser_sets_readyState.
  destruct (Nat.ltb dc (length (readyStates w))); exact H.
Qed.

Lemma connections_ok_always E history : connections_ok (perform_all E history initial).
Proof.
  apply invariant_of_histories; [ | apply connections_ok_perform].
  unfold connections_ok, live_connections. cbn.
  split; [constructor | split; [constructor | split; intros pc []]].
Qed.

(** X6. After any history, no connection was closed twice, no two
    sessions of the table share a connection, and no session of the table
    holds a connection that was closed: a teardown closes the connection of
    the session it removes, once, and the table never keeps a dead one. *)
Theorem no_connection_closed_twice (E : Env) (history : list Action) :
  NoDup (closed (perform_all E history initial))
  /\ NoDup (live_connections (perform_all E history initial))
  /\ (forall peerId p,
        Map_get peerId (peers (perform_all E history initial)) = Some p ->
        ~ In (connection p) (closed (perform_all E history initial)))
  /\ (forall pc, In pc (closed (perform_all E history initial)) ->
                 pc < connections (perform_all E history initial)).
Proof.
  destruct (connections_ok_always E history) as (Hc & Hl & Hlive & Hclosed).
  split; [exact Hc | ]. split; [exact Hl | ]. split; [ | exact Hclosed].
  intros peerId p Hget. apply (Hlive (connection p)).
  unfold live_connections. apply in_map_iff. exists (peerId, p).
  split; [reflexivity | exact (Map_get_In _ _ _ Hget)].
Qed.

End Invariants.

(** ** The wire *)

Module WireInvariant.

Import MorphRTC MapFacts Blind TeardownFacts SendFacts KeyExchangeFacts Invariants.

Lemma wire_ok_ext E w w' :
  peers w' = peers w -> sent w' = sent w -> wire_ok E w -> wire_ok E w'.
Proof. unfold wire_ok. intros -> ->. exact (fun H => H). Qed.

Lemma keeps_wire_ok E {A} (c : M A) : keeps_wire c -> preserves (wire_ok E) c.
Proof. intros Hc w H. destruct (Hc w) as (Hp & Hs). exact (wire_ok_ext E _ _ Hp Hs H). Qed.

Lemma keeps_wire_console_write l line : keeps_wire (console_write l line).
Proof. intros w. split; reflexivity. Qed.

Lemma keeps_wire_emit e : keeps_wire (emit e).
Proof. intros w. split; reflexivity. Qed.

Lemma keeps_wire_sendSignal target signal : keeps_wire (sendSignal target signal).
Proof. intros w. split; reflexivity. Qed.

Lemma keeps_wire_connection_close pc : keeps_wire (connection_close pc).
Proof. intros w. split; reflexivity. Qed.

Lemma keeps_wire_new_RTCPeerConnection : keeps_wire new_RTCPeerConnection.
Proof. intros w. split; reflexivity. Qed.

Lemma keeps_wire_createDataChannel : keeps_wire createDataChannel.
Proof. intros w. split; reflexivity. Qed.

Lemma keeps_wire_MorphCrypto_encrypt E key plaintext :
  keeps_wire (MorphCrypto_encrypt E key plaintext).
Proof. intros w. split; reflexivity. Qed.

Lemma keeps_wire_modify_keys kp jwk : keeps_wire (modify (set_keys kp jwk)).
Proof. intros w. split; reflexivity. Qed.

Lemma wire_ok_assign E peerId f :
  (forall p, sharedKey (f p) = sharedKey p) -> preserves (wire_ok E) (assign peerId f).
Proof.
  intros Hf w (Hkeys & Hsent). split; [ | exact Hsent]. cbn.
  intros k q key. destruct (String.eqb peerId k) eqn:Hk.
  - apply String.eqb_eq in Hk. subst. rewrite Map_get_update.
    destruct (Map_get k (peers w)) as [p |] eqn:Hget; cbn; [ | discriminate].
    intros [= <-]. rewrite Hf. exact (Hkeys _ _ _ Hget).
  - apply String.eqb_neq in Hk. rewrite (Map_get_update_other _ _ _ _ Hk). apply Hkeys.
Qed.

Lemma wire_ok_assign_key E peerId key :
  derived E key -> preserves (wire_ok E) (assign peerId (set_sharedKey (Some key))).
Proof.
  intros Hd w (Hkeys & Hsent). split; [ | exact Hsent]. cbn.
  intros k q key'. destruct (String.eqb peerId k) eqn:Hk.
  - apply String.eqb_eq in Hk. subst. rewrite Map_get_update.
    destruct (Map_get k (peers w)) as [p |] eqn:Hget; cbn; [ | discriminate].
    intros [= <-]. cbn. intros [= <-]. exact Hd.
  - apply String.eqb_neq in Hk. rewrite (Map_get_update_other _ _ _ _ Hk). apply Hkeys.
Qed.

Lemma wire_ok_peers_set E peerId p :
  sharedKey p = None -> preserves (wire_ok E) (peers_set peerId p).
Proof.
  intros Hp w (Hkeys & Hsent). split; [ | exact Hsent]. cbn.
  intros k q key. destruct (String.eqb peerId k) eqn:Hk.
  - apply String.eqb_eq in Hk. subst. rewrite Map_get_set. intros [= <-]. congruence.
  - apply String.eqb_neq in Hk. rewrite (Map_get_set_other _ _ _ _ Hk). apply Hkeys.
Qed.

Lemma wire_ok_peers_delete E peerId : preserves (wire_ok E) (peers_delete peerId).
Proof.
  intros w (Hkeys & Hsent). split; [ | exact Hsent]. cbn.
  intros k q key Hq. exact (Hkeys _ _ _ (Map_get_delete_Some _ _ _ _ Hq)).
Qed.

Lemma wire_ok_peers_clear E : preserves (wire_ok E) peers_clear.
Proof. intros w (_ & Hsent). split; [ | exact Hsent]. cbn. discriminate. Qed.

Lemma wire_ok_dataChannel_send E dc frame :
  legit_frame E frame -> preserves (wire_ok E) (dataChannel_send E dc frame).
Proof.
  intros Hf w (Hkeys & Hsent). unfold exec, dataChannel_send.
  destruct (is_open (readyState dc w) && channel_accepts E dc frame); cbn [snd].
  - split; [exact Hkeys | ]. cbn. apply Forall_app. split; [exact Hsent | ].
    apply Forall_cons; [exact Hf | constructor].
  - split; assumption.
Qed.

Lemma legit_control E jwk :
  legit_frame E
    (JSON_stringify E (JObj [("_morph"%string, JStr "key-exchange"); ("publicKey"%string, jwk)])).
Proof. left. exists jwk. reflexivity. Qed.

#[export] Hint Resolve keeps_wire_ok keeps_wire_console_write keeps_wire_emit
  keeps_wire_sendSignal keeps_wire_connection_close keeps_wire_new_RTCPeerConnection
  keeps_wire_createDataChannel keeps_wire_MorphCrypto_encrypt keeps_wire_modify_keys
  wire_ok_assign wire_ok_assign_key wire_ok_peers_set wire_ok_peers_delete
  wire_ok_peers_clear wire_ok_dataChannel_send legit_control : preserve.

Lemma wire_ok_handlePeerDisconnect E peerId :
  preserves (wire_ok E) (handlePeerDisconnect peerId).
Proof. unfold handlePeerDisconnect. preserve. Qed.

Lemma wire_ok_sendToPeer E peerId msg : preserves (wire_ok E) (sendToPeer E peerId msg).
Proof.
  intros w H. unfold exec. destruct (Map_get peerId (peers w)) as [p |] eqn:Hget.
  - destruct (sharedKey p) as [key |] eqn:Hk.
    + destruct (channel_not_open p w) eqn:Hc.
      * rewrite (sendToPeer_refuses E _ _ _ _ _ Hget Hk Hc). exact H.
      * destruct (channel_open_inv _ _ Hc) as (dc & Hdc & Hopen).
        rewrite (sendToPeer_transmits E _ msg _ _ _ _ Hget Hk Hdc Hopen).
        destruct (encrypt E key (ivs w) (JSON_stringify E msg)) as [frame |] eqn:He;
          [destruct (channel_accepts E dc frame) | ]; try exact H.
        destruct H as (Hkeys & Hsent). split; [exact Hkeys | ]. cbn.
        apply Forall_app. split; [exact Hsent | ]. apply Forall_cons; [ | constructor]. cbn.
        right. exists key, (ivs w), msg. split; [exact (Hkeys _ _ _ Hget Hk) | exact He].
    + rewrite (sendToPeer_queues E _ _ _ _ Hget Hk). cbn [snd].
      apply (wire_ok_peers_set E peerId (push_pending msg p)); [exact Hk | exact H].
  - rewrite (sendToPeer_absent E _ _ _ Hget). exact H.
Qed.

#[export] Hint Resolve wire_ok_handlePeerDisconnect wire_ok_sendToPeer : preserve.

Lemma wire_ok_keyExchange E peerId peer publicKey :
  preserves (wire_ok E) (keyExchange E peerId peer publicKey).
Proof.
  intros w H.
  destruct (match myKeyPair w with
            | Some kp => completeKeyExchange E kp publicKey
            | None => None
            end) as [key |] eqn:Hd.
  - destruct (myKeyPair w) as [kp |] eqn:Hkp; [ | discriminate].
    assert (Hder : derived E key) by (exists kp, publicKey; exact Hd).
    rewrite (keyExchange_steps E _ _ _ _ _ _ Hkp Hd).
    assert (Hrest : preserves (wire_ok E)
                      (flush E peerId (pendingMessages peer) ;;
                       assign peerId (set_pendingMessages [])))
      by (unfold flush; preserve).
    apply (Hrest _).
    apply (wire_ok_ext E
             (exec (assign peerId (set_state "encrypted"))
                (exec (assign peerId (set_sharedKey (Some key))) w)));
      [reflexivity | reflexivity | ].
    apply wire_ok_assign; [reflexivity | ].
    apply wire_ok_assign_key; assumption.
  - unfold exec. rewrite (keyExchange_fails E _ _ _ _ Hd). exact H.
Qed.

#[export] Hint Resolve wire_ok_keyExchange : preserve.

Lemma wire_ok_handleSignal E peerId peerName signal :
  preserves (wire_ok E) (handleSignal E peerId peerName signal).
Proof. unfold handleSignal. preserve. Qed.

#[export] Hint Resolve wire_ok_handleSignal : preserve.




End WireInvariant.

(** ** Creating and replacing sessions *)

Module SessionFacts.

Import MorphRTC MeshVocabulary MapFacts Blind TeardownFacts SendFacts KeyExchangeFacts Invariants.

Lemma Map_set_length k v m :
  length (Map_set k v m) = length m + (if is_set (Map_get k m) then 0 else 1).
Proof.
  induction m as [| [k' v'] m IH]; cbn; [reflexivity | ].
  destruct (String.eqb k k'); cbn; [lia | ].
  rewrite IH. destruct (Map_get k m); cbn; lia.
Qed.

Lemma connectToPeer_effect E peerId peerName w :
  peers (exec (connectToPeer E peerId peerName) w)
    = Map_set peerId (offered_session w peerName) (peers w)
  /\ events (exec (connectToPeer E peerId peerName) w) = events w
  /\ closed (exec (connectToPeer E peerId peerName) w) = closed w
  /\ sent (exec (connectToPeer E peerId peerName) w) = sent w
  /\ readyStates (exec (connectToPeer E peerId peerName) w) = readyStates w ++ [rs_connecting]
  /\ match negotiate_offer E (connections w) with
     | Some localDescription =>
         result (connectToPeer E peerId peerName) w = Resolved
         /\ signals (exec (connectToPeer E peerId peerName) w)
            = signals w ++ [(peerId, JObj [("type"%string, JStr "offer");
                                           ("sdp"%string, localDescription)])]
     | None =>
         result (connectToPeer E peerId peerName) w = Rejected
         /\ signals (exec (connectToPeer E peerId peerName) w) = signals w
     end.
Proof.
  unfold connectToPeer, exec, result, bind, console_write, modify, new_RTCPeerConnection,
    createDataChannel, peers_set, sendSignal, ret. cbn.
  destruct (negotiate_offer E (connections w)); cbn; repeat split.
Qed.

(** X8. [connectToPeer] registers the session before it negotiates.
    Whether the offer can be made or not, the peer is in the table
    afterwards, as initiator, connecting, without key and with an empty
    queue, and the other sessions are as before; a peer that was not in
    the table makes the roster one longer. When the offer cannot be made
    the promise rejects and no signal is sent, but the session stays. A
    session the peer already had is replaced without being torn down: no
    disconnect event, no connection closed. *)
Theorem connectToPeer_registers_before_negotiating (E : Env) (peerId : PeerId)
    (peerName : string) (w : World) :
  Map_get peerId (peers (exec (connectToPeer E peerId peerName) w))
    = Some (offered_session w peerName)
  /\ (forall other, other <> peerId ->
        Map_get other (peers (exec (connectToPeer E peerId peerName) w))
        = Map_get other (peers w))
  /\ getPeerCount (exec (connectToPeer E peerId peerName) w)
     = getPeerCount w + (if is_set (Map_get peerId (peers w)) then 0 else 1)
  /\ events (exec (connectToPeer E peerId peerName) w) = events w
  /\ closed (exec (connectToPeer E peerId peerName) w) = closed w
  /\ (negotiate_offer E (connections w) = None ->
      result (connectToPeer E peerId peerName) w = Rejected
      /\ signals (exec (connectToPeer E peerId peerName) w) = signals w)
  /\ (forall localDescription,
        negotiate_offer E (connections w) = Some localDescription ->
        result (connectToPeer E peerId peerName) w = Resolved
        /\ signals (exec (connectToPeer E peerId peerName) w)
           = signals w ++ [(peerId, JObj [("type"%string, JStr "offer");
                                          ("sdp"%string, localDescription)])]).
Proof.
  destruct (connectToPeer_effect E peerId peerName w) as (Hp & He & Hc & _ & _ & Hn).
  unfold getPeerCount. rewrite Hp.
  split; [apply Map_get_set | ].
  split; [intros other Hne; apply Map_get_set_other; congruence | ].
  split; [apply Map_set_length | ].
  split; [exact He | ]. split; [exact Hc | ].
  split.
  - intros Hnone. rewrite Hnone in Hn. exact Hn.
  - intros d Hsome. rewrite Hsome in Hn. exact Hn.
Qed.

Lemma handleSignal_offer_effect E peerId peerName signal w :
  getProp "type" signal = JStr "offer" ->
  peers (exec (handleSignal E peerId peerName signal) w)
    = Map_set peerId (answered_session w peerName) (peers w)
  /\ events (exec (handleSignal E peerId peerName signal) w) = events w
  /\ closed (exec (handleSignal E peerId peerName signal) w) = closed w
  /\ sent (exec (handleSignal E peerId peerName signal) w) = sent w
  /\ match negotiate_answer E (connections w) (getProp "sdp" signal) with
     | Some localDescription =>
         result (handleSignal E peerId peerName signal) w = Resolved
         /\ signals (exec (handleSignal E peerId peerName signal) w)
            = signals w ++ [(peerId, JObj [("type"%string, JStr "answer");
                                           ("sdp"%string, localDescription)])]
     | None =>
         result (handleSignal E peerId peerName signal) w = Rejected
         /\ signals (exec (handleSignal E peerId peerName signal) w) = signals w
     end.
Proof.
  intros Ht. destruct signal; try (cbn in Ht; discriminate Ht).
  unfold handleSignal. rewrite Ht.
  unfold exec, result, bind, console_write, modify, new_RTCPeerConnection,
    peers_set, sendSignal, ret. cbn.
  destruct (negotiate_answer E (connections w) (assoc "sdp" props)); cbn; repeat split.
Qed.

(** X9. An offer makes an answering session: not initiator, connecting,
    no channel, no key, empty queue; the answer is signalled back when it
    can be made, and when it cannot the promise rejects while the session
    stays in the table. If the peer already had a session, the offer
    replaces it where it stood in the table: the old connection is not
    closed, no disconnect event is emitted, and the messages queued for
    the peer are gone. *)
Theorem offer_replaces_session (E : Env) (peerId : PeerId) (peerName : string)
    (signal : json) (w : World) :
  getProp "type" signal = JStr "offer" ->
  Map_get peerId (peers (exec (handleSignal E peerId peerName signal) w))
    = Some (answered_session w peerName)
  /\ Map_keys (peers (exec (handleSignal E peerId peerName signal) w))
     = (if is_set (Map_get peerId (peers w)) then Map_keys (peers w)
        else Map_keys (peers w) ++ [peerId])
  /\ events (exec (handleSignal E peerId peerName signal) w) = events w
  /\ closed (exec (handleSignal E peerId peerName signal) w) = closed w
  /\ (negotiate_answer E (connections w) (getProp "sdp" signal) = None ->
      result (handleSignal E peerId peerName signal) w = Rejected
      /\ signals (exec (handleSignal E peerId peerName signal) w) = signals w)
  /\ (forall localDescription,
        negotiate_answer E (connections w) (getProp "sdp" signal) = Some localDescription ->
        result (handleSignal E peerId peerName signal) w = Resolved
        /\ signals (exec (handleSignal E peerId peerName signal) w)
           = signals w ++ [(peerId, JObj [("type"%string, JStr "answer");
                                          ("sdp"%string, localDescription)])]).
Proof.
  intros Ht.
  destruct (handleSignal_offer_effect E peerId peerName signal w Ht)
    as (Hp & He & Hc & _ & Hn).
  rewrite Hp. split; [apply Map_get_set | ].
  split.
  { destruct (Map_get peerId (peers w)) as [p |] eqn:Hget; cbn [is_set].
    - exact (Map_keys_set _ _ _ _ Hget).
    - clear Hp. induction (peers w) as [| [k v] m IH]; cbn in *; [reflexivity | ].
      destruct (String.eqb peerId k); [discriminate | ]. cbn.
      unfold Map_keys in IH. rewrite (IH Hget). reflexivity. }
  split; [exact He | ]. split; [exact Hc | ].
  split.
  - intros Hnone. rewrite Hnone in Hn. exact Hn.
  - intros d Hsome. rewrite Hsome in Hn. exact Hn.
Qed.

Lemma offer_replaces_session_witness :
  option_map pendingMessages (Map_get "dave" (peers Scenes.w_queued_dave)) = Some [Demo.chat "four"]
  /\ option_map pendingMessages
       (Map_get "dave"
          (peers (exec (handleSignal Demo.env "dave" "Dave"
                          (JObj [("type"%string, JStr "offer"); ("sdp"%string, JStr "offer-sdp")]))
                    Scenes.w_queued_dave)))
     = Some []
  /\ closed (exec (handleSignal Demo.env "dave" "Dave"
                     (JObj [("type"%string, JStr "offer"); ("sdp"%string, JStr "offer-sdp")]))
               Scenes.w_queued_dave)
     = closed Scenes.w_queued_dave.
Proof.
  split; [vm_compute; reflexivity | ].
  destruct (offer_replaces_session Demo.env "dave" "Dave"
              (JObj [("type"%string, JStr "offer"); ("sdp"%string, JStr "offer-sdp")])
              Scenes.w_queued_dave eq_refl) as (Hget & _ & _ & Hclosed & _).
  split; [rewrite Hget; reflexivity | exact Hclosed].
Defined.

End SessionFacts.

(** ** Frames in, frames out *)

Module DeliveryFacts.

Import MorphRTC MeshVocabulary MapFacts Blind TeardownFacts SendFacts ReceiveFacts
  KeyExchangeFacts Invariants.




(** X11. [disconnectAll] in any world the module can be in: every
    session gets exactly one disconnect event, in table order, every
    connection of the table is closed, nothing is sent, and the table is
    empty afterwards. *)
Theorem disconnectAll_tears_down_every_session (E : Env) (history : list Action) :
  events (exec disconnectAll (perform_all E history initial))
    = events (perform_all E history initial)
      ++ map (fun e => peer_disconnected (fst e) (name (snd e)))
             (peers (perform_all E history initial))
  /\ closed (exec disconnectAll (perform_all E history initial))
     = closed (perform_all E history initial)
       ++ live_connections (perform_all E history initial)
  /\ peers (exec disconnectAll (perform_all E history initial)) = []
  /\ sent (exec disconnectAll (perform_all E history initial))
     = sent (perform_all E history initial).
Proof.
  rewrite (disconnectAll_spec _ (proj1 (table_ok_always E history))).
  repeat split.
Qed.





Lemma dc_onopen_effect E peerId dc w peer :
  Map_get peerId (peers w) = Some peer ->
  readyState dc w = rs_open ->
  channel_accepts E dc (control_frame E (myPublicKeyJwk w)) = true ->
  peers (exec (dc_onopen E peerId dc) w) = Map_set peerId (set_state "open" peer) (peers w)
  /\ sent (exec (dc_onopen E peerId dc) w)
     = sent w ++ [(dc, control_frame E (myPublicKeyJwk w))]
  /\ events (exec (dc_onopen E peerId dc) w)
     = events w ++ [peer_connected peerId (Some (name peer))]
  /\ myKeyPair (exec (dc_onopen E peerId dc) w) = myKeyPair w
  /\ myPublicKeyJwk (exec (dc_onopen E peerId dc) w) = myPublicKeyJwk w.
Proof.
  intros H Hopen Hacc.
  unfold dc_onopen, exec, bind, console_write, peers_get, gets, assign, modify,
    dataChannel_send, emit, control_frame in *. cbn.
  rewrite H. cbn. unfold readyState in *. cbn. rewrite Hopen. cbn. rewrite Hacc. cbn.
  rewrite (Map_update_set _ _ _ _ H). repeat split.
Qed.

(** One side of the handshake. *)
Lemma handshake_side E peerId dc theirs w peer parsed kp key :
  Map_get peerId (peers w) = Some peer ->
  readyState dc w = rs_open ->
  channel_accepts E dc (control_frame E (myPublicKeyJwk w)) = true ->
  JSON_parse E theirs = Some parsed ->
  is_control (Some parsed) = true ->
  truthy (getProp "publicKey" parsed) = true ->
  myKeyPair w = Some kp ->
  completeKeyExchange E kp (getProp "publicKey" parsed) = Some key ->
  Map_get peerId (peers (exec (handshake E peerId dc theirs) w))
    = Some (encrypted_session key peer)
  /\ events (exec (handshake E peerId dc theirs) w)
     = events w ++ [peer_connected peerId (Some (name peer));
                    peer_encrypted peerId (name peer)].
Proof.
  intros H Hopen Hacc Hparse Hctl Htruthy Hkp Hd.
  destruct (dc_onopen_effect E peerId dc w peer H Hopen Hacc) as (Hp & _ & He & Hmk & _).
  unfold handshake. rewrite exec_bind.
  set (w1 := exec (dc_onopen E peerId dc) w) in *.
  assert (H1 : Map_get peerId (peers w1) = Some (set_state "open" peer))
    by (rewrite Hp; apply Map_get_set).
  assert (Heq : exec (dc_onmessage E peerId theirs) w1
                = exec (keyExchange E peerId (set_state "open" peer)
                          (getProp "publicKey" parsed)) w1).
  { rewrite (dc_onmessage_control E peerId theirs w1 _ parsed H1 Hparse Hctl).
    unfold exec at 1.
    rewrite (handleSignal_key_exchange E peerId (name (set_state "open" peer))
               (JObj [("type"%string, JStr "key-exchange");
                      ("publicKey"%string, getProp "publicKey" parsed)])
               w1 _ eq_refl H1).
    change (getProp "publicKey" (JObj _)) with (getProp "publicKey" parsed).
    rewrite Htruthy. reflexivity. }
  rewrite Heq.
  destruct (keyExchange_installs E peerId (set_state "open" peer)
              (getProp "publicKey" parsed) w1 kp key H1) as (Hp2 & He2);
    [rewrite Hmk; exact Hkp | exact Hd | ].
  rewrite Hp2, He2, He. split.
  - rewrite Map_get_set. reflexivity.
  - rewrite <- app_assoc. reflexivity.
Qed.

(** X13. The handshake gives both sides the same key. On each side the
    channel opens and the side sends its control frame; then the control
    frame of the other side arrives. If each control frame parses back to
    what was serialized and the key agreement of the provider is
    symmetric (each side derives [key] from its own key pair and the
    public key of the other), both sessions end up holding [key], marked
    encrypted, with empty queues, and each side announced the connection
    and then the encryption, once each. *)
Theorem handshake_gives_both_sides_the_key (E : Env) (a b : PeerId)
    (wA wB : World) (pa pb : PeerState) (dcA dcB : RTCDataChannel)
    (kpA kpB : KeyPair) (key : CryptoKey) :
  Map_get b (peers wA) = Some pa -> readyState dcA wA = rs_open ->
  channel_accepts E dcA (control_frame E (myPublicKeyJwk wA)) = true ->
  Map_get a (peers wB) = Some pb -> readyState dcB wB = rs_open ->
  channel_accepts E dcB (control_frame E (myPublicKeyJwk wB)) = true ->
  JSON_parse E (control_frame E (myPublicKeyJwk wA))
    = Some (JObj [("_morph"%string, JStr "key-exchange");
                  ("publicKey"%string, myPublicKeyJwk wA)]) ->
  JSON_parse E (control_frame E (myPublicKeyJwk wB))
    = Some (JObj [("_morph"%string, JStr "key-exchange");
                  ("publicKey"%string, myPublicKeyJwk wB)]) ->
  truthy (myPublicKeyJwk wA) = true -> truthy (myPublicKeyJwk wB) = true ->
  myKeyPair wA = Some kpA -> myKeyPair wB = Some kpB ->
  completeKeyExchange E kpA (myPublicKeyJwk wB) = Some key ->
  completeKeyExchange E kpB (myPublicKeyJwk wA) = Some key ->
  sent (exec (dc_onopen E b dcA) wA) = sent wA ++ [(dcA, control_frame E (myPublicKeyJwk wA))]
  /\ sent (exec (dc_onopen E a dcB) wB) = sent wB ++ [(dcB, control_frame E (myPublicKeyJwk wB))]
  /\ Map_get b (peers (exec (handshake E b dcA (control_frame E (myPublicKeyJwk wB))) wA))
     = Some (encrypted_session key pa)
  /\ Map_get a (peers (exec (handshake E a dcB (control_frame E (myPublicKeyJwk wA))) wB))
     = Some (encrypted_session key pb)
  /\ events (exec (handshake E b dcA (control_frame E (myPublicKeyJwk wB))) wA)
     = events wA ++ [peer_connected b (Some (name pa)); peer_encrypted b (name pa)]
  /\ events (exec (handshake E a dcB (control_frame E (myPublicKeyJwk wA))) wB)
     = events wB ++ [peer_connected a (Some (name pb)); peer_encrypted a (name pb)].
Proof.
  intros HA HopenA HaccA HB HopenB HaccB HparseA HparseB HtA HtB HkpA HkpB HdA HdB.
  destruct (dc_onopen_effect E b dcA wA pa HA HopenA HaccA) as (_ & HsA & _).
  destruct (dc_onopen_effect E a dcB wB pb HB HopenB HaccB) as (_ & HsB & _).
  destruct (handshake_side E b dcA _ wA pa _ kpA key HA HopenA HaccA HparseB eq_refl
              HtB HkpA HdA) as (HpA & HeA).
  destruct (handshake_side E a dcB _ wB pb _ kpB key HB HopenB HaccB HparseA eq_refl
              HtA HkpB HdB) as (HpB & HeB).
  repeat split; assumption.
Qed.

Lemma handshake_gives_both_sides_the_key_witness :
  completeKeyExchange Demo.env 2 (Demo.jwk 1) = Some 3
  /\ completeKeyExchange Demo.env 1 (Demo.jwk 2) = Some 3
  /\ option_map sharedKey
       (Map_get "bob" (peers (exec (handshake Demo.env "bob" 0 "kx1") Scenes.w_alice_waiting)))
     = Some (Some 3)
  /\ option_map sharedKey
       (Map_get "alice" (peers (exec (handshake Demo.env "alice" 0 "kx2") Scenes.w_bob_waiting)))
     = Some (Some 3).
Proof.
  assert (HA : Map_get "bob" (peers Scenes.w_alice_waiting)
               = Some {| connection := 0; dataChannel := Some 0; sharedKey := None;
                         name := "Bob"; state := "connecting"; isInitiator := true;
                         pendingMessages := [Demo.chat "one"; Demo.chat "two"] |})
    by (vm_compute; reflexivity).
  assert (HB : Map_get "alice" (peers Scenes.w_bob_waiting)
               = Some {| connection := 0; dataChannel := Some 0; sharedKey := None;
                         name := "Alice"; state := "connecting"; isInitiator := false;
                         pendingMessages := [] |})
    by (vm_compute; reflexivity).
  assert (HopenA : readyState 0 Scenes.w_alice_waiting = rs_open)
    by (vm_compute; reflexivity).
  assert (HopenB : readyState 0 Scenes.w_bob_waiting = rs_open)
    by (vm_compute; reflexivity).
  assert (HjA : myPublicKeyJwk Scenes.w_alice_waiting = Demo.jwk 2)
    by (vm_compute; reflexivity).
  assert (HjB : myPublicKeyJwk Scenes.w_bob_waiting = Demo.jwk 1)
    by (vm_compute; reflexivity).
  assert (HkA : myKeyPair Scenes.w_alice_waiting = Some 2) by (vm_compute; reflexivity).
  assert (HkB : myKeyPair Scenes.w_bob_waiting = Some 1) by (vm_compute; reflexivity).
  assert (HfA : control_frame Demo.env (Demo.jwk 2) = "kx2"%string)
    by (vm_compute; reflexivity).
  assert (HfB : control_frame Demo.env (Demo.jwk 1) = "kx1"%string)
    by (vm_compute; reflexivity).
  split; [reflexivity | ]. split; [reflexivity | ].
  pose proof (fun pb => handshake_gives_both_sides_the_key Demo.env "alice" "bob"
                Scenes.w_alice_waiting Scenes.w_bob_waiting _ pb 0 0 2 1 3
                HA HopenA) as H.
  rewrite HjA, HjB, HfA, HfB in H.
  destruct (H _ eq_refl HB HopenB eq_refl eq_refl eq_refl eq_refl eq_refl HkA HkB
              eq_refl eq_refl) as (_ & _ & HpA & HpB & _).
  rewrite HpA, HpB. split; reflexivity.
Defined.

End DeliveryFacts.

(** ** The framing of encrypted messages *)

Module FramingFacts.

Lemma getRandomValues_length P draw len :
  length (MorphCrypto.getRandomValues P draw len) = len.
Proof.
  unfold MorphCrypto.getRandomValues. rewrite length_map, length_seq. reflexivity.
Qed.

Lemma firstn_iv (iv rest : list Byte.byte) :
  length iv = MorphCrypto.IV_LENGTH ->
  firstn MorphCrypto.IV_LENGTH (iv ++ rest) = iv
  /\ skipn MorphCrypto.IV_LENGTH (iv ++ rest) = rest.
Proof.
  intros <-. split.
  - rewrite firstn_app, Nat.sub_diag, firstn_all. cbn. apply app_nil_r.
  - rewrite skipn_app, Nat.sub_diag, skipn_all. reflexivity.
Qed.

Lemma string_of_list_byte_inj (a b : list Byte.byte) :
  string_of_list_byte a = string_of_list_byte b -> a = b.
Proof.
  intros H. rewrite <- (list_byte_of_string_of_list_byte a),
    <- (list_byte_of_string_of_list_byte b), H. reflexivity.
Qed.

(** [decrypt] on a frame that joins an IV of [IV_LENGTH] bytes and a
    ciphertext hands [subtle.decrypt] that IV and that ciphertext. *)
Lemma decrypt_frame P key (iv cipher : list Byte.byte) :
  MorphCrypto.base64_round_trip P ->
  length iv = MorphCrypto.IV_LENGTH ->
  MorphCrypto.decrypt P key (MorphCrypto.btoa P (string_of_list_byte (iv ++ cipher)))
  = match MorphCrypto.subtle_decrypt P key iv cipher with
    | Some decrypted => Some (MorphCrypto.TextDecoder_decode P decrypted)
    | None => None
    end.
Proof.
  intros Hb Hlen. unfold MorphCrypto.decrypt. rewrite Hb. cbv zeta.
  rewrite list_byte_of_string_of_list_byte.
  destruct (firstn_iv iv cipher Hlen) as (-> & ->). reflexivity.
Qed.

Lemma toy_base64 : MorphCrypto.base64_round_trip MorphCrypto.toy.
Proof. intros s. reflexivity. Qed.

Lemma toy_aes_gcm : MorphCrypto.aes_gcm_correct MorphCrypto.toy.
Proof.
  intros key iv plain cipher H. cbn in *. injection H as <-.
  rewrite rev_involutive. reflexivity.
Qed.

(** X14. [decrypt] inverts [encrypt]: when base64 and AES-GCM of the
    browser round-trip and the plaintext survives UTF-8 coding, a frame
    that [encrypt] made under a key decrypts under that key to the
    plaintext. [decrypt] cuts the frame where [encrypt] joined IV and
    ciphertext, after [IV_LENGTH] bytes. *)
Theorem decrypt_inverts_encrypt (P : MorphCrypto.Platform) (key : CryptoKey)
    (draw : nat) (plaintext frame : string) :
  MorphCrypto.base64_round_trip P ->
  MorphCrypto.aes_gcm_correct P ->
  MorphCrypto.TextDecoder_decode P (MorphCrypto.TextEncoder_encode P plaintext) = plaintext ->
  MorphCrypto.encrypt P key draw plaintext = Some frame ->
  MorphCrypto.decrypt P key frame = Some plaintext.
Proof.
  intros Hb Ha Hu He. unfold MorphCrypto.encrypt in He. cbv zeta in He.
  pose proof (getRandomValues_length P draw MorphCrypto.IV_LENGTH) as Hlen.
  remember (MorphCrypto.getRandomValues P draw MorphCrypto.IV_LENGTH) as iv eqn:Hiv.
  destruct (MorphCrypto.subtle_encrypt P key iv _) as [cipher | ] eqn:Hc; [ | discriminate He].
  injection He as <-. rewrite (decrypt_frame P key iv cipher Hb Hlen).
  rewrite (Ha _ _ _ _ Hc), Hu. reflexivity.
Qed.

Lemma decrypt_inverts_encrypt_witness :
  MorphCrypto.encrypt MorphCrypto.toy 3 0 "hello" <> None
  /\ forall frame, MorphCrypto.encrypt MorphCrypto.toy 3 0 "hello" = Some frame ->
                   MorphCrypto.decrypt MorphCrypto.toy 3 frame = Some "hello"%string.
Proof.
  split; [discriminate | ]. intros frame.
  exact (decrypt_inverts_encrypt MorphCrypto.toy 3 0 "hello" frame toy_base64 toy_aes_gcm
           eq_refl).
Defined.

(** X15. Frames made with different IVs differ, whatever the keys and the
    plaintexts: the IV is the first [IV_LENGTH] bytes of every frame, so
    two equal frames carry the same IV. Base64 of the browser is taken to
    round-trip. *)
Theorem different_ivs_give_different_frames (P : MorphCrypto.Platform)
    (key1 key2 : CryptoKey) (draw1 draw2 : nat) (plaintext1 plaintext2 frame1 frame2 : string) :
  MorphCrypto.base64_round_trip P ->
  MorphCrypto.getRandomValues P draw1 MorphCrypto.IV_LENGTH
    <> MorphCrypto.getRandomValues P draw2 MorphCrypto.IV_LENGTH ->
  MorphCrypto.encrypt P key1 draw1 plaintext1 = Some frame1 ->
  MorphCrypto.encrypt P key2 draw2 plaintext2 = Some frame2 ->
  frame1 <> frame2.
Proof.
  intros Hb Hne H1 H2 Heq. apply Hne. unfold MorphCrypto.encrypt in H1, H2.
  cbv zeta in H1, H2.
  pose proof (getRandomValues_length P draw1 MorphCrypto.IV_LENGTH) as Hlen1.
  pose proof (getRandomValues_length P draw2 MorphCrypto.IV_LENGTH) as Hlen2.
  remember (MorphCrypto.getRandomValues P draw1 MorphCrypto.IV_LENGTH) as iv1 eqn:Hiv1.
  remember (MorphCrypto.getRandomValues P draw2 MorphCrypto.IV_LENGTH) as iv2 eqn:Hiv2.
  destruct (MorphCrypto.subtle_encrypt P key1 iv1 _) as [c1 | ]; [ | discriminate H1].
  destruct (MorphCrypto.subtle_encrypt P key2 iv2 _) as [c2 | ]; [ | discriminate H2].
  injection H1 as <-. injection H2 as <-.
  apply (f_equal (MorphCrypto.atob P)) in Heq. rewrite !Hb in Heq.
  injection Heq as Heq. apply string_of_list_byte_inj in Heq.
  apply (f_equal (firstn MorphCrypto.IV_LENGTH)) in Heq.
  rewrite (proj1 (firstn_iv iv1 c1 Hlen1)), (proj1 (firstn_iv iv2 c2 Hlen2)) in Heq.
  exact Heq.
Qed.

Lemma different_ivs_give_different_frames_witness :
  MorphCrypto.encrypt MorphCrypto.toy 3 0 "hello"
  <> MorphCrypto.encrypt MorphCrypto.toy 3 1 "hello".
Proof.
  assert (H1 : MorphCrypto.encrypt MorphCrypto.toy 3 0 "hello"
               = Some (string_of_list_byte
                         (repeat Byte.x00 12 ++ rev (list_byte_of_string "hello"))))
    by reflexivity.
  assert (H2 : MorphCrypto.encrypt MorphCrypto.toy 3 1 "hello"
               = Some (string_of_list_byte
                         (repeat Byte.x01 12 ++ rev (list_byte_of_string "hello"))))
    by reflexivity.
  assert (Hiv : MorphCrypto.getRandomValues MorphCrypto.toy 0 MorphCrypto.IV_LENGTH
                <> MorphCrypto.getRandomValues MorphCrypto.toy 1 MorphCrypto.IV_LENGTH)
    by (cbn; discriminate).
  rewrite H1, H2. intros Heq.
  apply (different_ivs_give_different_frames MorphCrypto.toy 3 3 0 1 "hello" "hello" _ _
           toy_base64 Hiv H1 H2).
  congruence.
Defined.

End FramingFacts.

(** ** The event bus *)

Module EventBusFacts.

Import EventBus.

Lemma get_set type type' cbs handlers :
  get type (set type' cbs handlers)
  = if String.eqb type' type then Some cbs else get type handlers.
Proof.
  induction handlers as [ | [k old] rest IH]; cbn.
  - destruct (String.eqb type' type); reflexivity.
  - destruct (String.eqb k type') eqn:Hk; cbn.
    + apply String.eqb_eq in Hk. subst k.
      destruct (String.eqb type' type); reflexivity.
    + destruct (String.eqb k type) eqn:Hkt.
      * apply String.eqb_eq in Hkt. subst k. rewrite String.eqb_sym, Hk. reflexivity.
      * exact IH.
Qed.

Lemma callbacks_on type type' callback handlers :
  callbacks type (on type' callback handlers)
  = callbacks type handlers ++ (if String.eqb type' type then [callback] else []).
Proof.
  unfold callbacks, on, has.
  destruct (get type' handlers) as [cbs | ] eqn:Hg; cbv beta iota zeta.
  - rewrite Hg, get_set. destruct (String.eqb type' type) eqn:Ht.
    + apply String.eqb_eq in Ht. subst type'. rewrite Hg. reflexivity.
    + rewrite app_nil_r. reflexivity.
  - rewrite get_set, String.eqb_refl, !get_set.
    destruct (String.eqb type' type) eqn:Ht.
    + apply String.eqb_eq in Ht. subst type'. rewrite Hg. reflexivity.
    + rewrite app_nil_r. reflexivity.
Qed.

Lemma callbacks_subscribe type subscriptions handlers :
  callbacks type (subscribe subscriptions handlers)
  = callbacks type handlers ++ subscribers type subscriptions.
Proof.
  revert handlers. induction subscriptions as [ | [t cb] rest IH]; intros handlers.
  - cbn. rewrite app_nil_r. reflexivity.
  - cbn [subscribe fold_left fst snd]. fold (subscribe rest (on t cb handlers)).
    rewrite IH, callbacks_on, <- app_assoc. unfold subscribers. cbn [filter fst].
    destruct (String.eqb t type); reflexivity.
Qed.

(** X16. [emit] calls exactly the callbacks subscribed to the type it is
    given, each with the data, in the order they were subscribed, a
    callback subscribed twice twice; subscriptions to other types do not
    matter, and an event nobody subscribed to makes no call. *)
Theorem emit_calls_subscribers_in_order (subscriptions : list (string * Callback))
    (type : string) (data : json) :
  emit type data (subscribe subscriptions [])
  = map (fun cb => (cb, data)) (subscribers type subscriptions).
Proof.
  unfold emit. cbv zeta. rewrite callbacks_subscribe. reflexivity.
Qed.

End EventBusFacts.

(** ** Messages to and from the signaling server *)

Module SignalingMessageFacts.

Import SignalingMessages.

Lemma subscribed_handlers subscriptions :
  handlers (subscribed subscriptions) = EventBus.subscribe subscriptions []
  /\ calls (subscribed subscriptions) = []
  /\ myPeerId (subscribed subscriptions) = JNull.
Proof.
  unfold subscribed, EventBus.subscribe.
  change (@nil (string * list EventBus.Callback)) with (handlers initial).
  assert (H : calls initial = [] /\ myPeerId initial = JNull) by (split; reflexivity).
  revert H. generalize initial.
  induction subscriptions as [ | [t cb] rest IH]; intros s (Hc & Hp).
  - repeat split; assumption.
  - cbn [fold_left fst snd]. destruct (IH (on t cb s)) as (H1 & H2 & H3).
    + split; assumption.
    + repeat split; assumption.
Qed.

Lemma emit_subscribed subscriptions type data :
  calls (emit type data (subscribed subscriptions))
  = map (fun cb => (cb, data)) (EventBus.subscribers type subscriptions).
Proof.
  destruct (subscribed_handlers subscriptions) as (Hh & Hc & _).
  unfold emit. cbn [calls]. rewrite Hc, Hh. cbn [app].
  unfold EventBus.emit. cbv zeta. rewrite EventBusFacts.callbacks_subscribe. reflexivity.
Qed.

(** X17. A message from the server reaches the subscribers of its type,
    in the order they subscribed, and nobody else; but a [welcome] is kept
    by the client: it stores the peer id and tells the subscribers of
    [ready], and the subscribers of [welcome] are never called. Data that
    does not parse changes nothing. *)
Theorem server_message_goes_to_its_subscribers (E : Env)
    (subscriptions : list (string * EventBus.Callback)) (data : string) :
  match JSON_parse E data with
  | None => ws_onmessage E data (subscribed subscriptions) = subscribed subscriptions
  | Some msg =>
      match getProp "type" msg with
      | JStr type =>
          if String.eqb type "welcome" then
            calls (ws_onmessage E data (subscribed subscriptions))
            = map (fun cb => (cb, JObj [("peerId"%string, getProp "peerId" msg)]))
                (EventBus.subscribers "ready" subscriptions)
            /\ getPeerId (ws_onmessage E data (subscribed subscriptions))
               = getProp "peerId" msg
          else
            calls (ws_onmessage E data (subscribed subscriptions))
            = map (fun cb => (cb, msg)) (EventBus.subscribers type subscriptions)
            /\ getPeerId (ws_onmessage E data (subscribed subscriptions)) = JNull
      | _ => ws_onmessage E data (subscribed subscriptions) = subscribed subscriptions
      end
  end.
Proof.
  destruct (subscribed_handlers subscriptions) as (Hh & Hc & Hp).
  unfold ws_onmessage. destruct (JSON_parse E data) as [msg | ]; [ | reflexivity].
  destruct msg as [ | | b | z | t | items | props]; try reflexivity.
  cbn [getProp strictEqStr].
  destruct (assoc "type" props) as [ | | b | z | type | items | props'] eqn:Ht;
    cbn [strictEqStr]; try reflexivity.
  destruct (String.eqb type "welcome").
  - split; [ | reflexivity].
    cbv zeta. unfold console_write. cbn [myPeerId ws handlers calls outbox console].
    unfold emit. cbn [calls handlers]. rewrite Hc, Hh. cbn [app].
    unfold EventBus.emit. cbv zeta. rewrite EventBusFacts.callbacks_subscribe. reflexivity.
  - split; [apply emit_subscribed | exact Hp].
Qed.

Lemma request_offline E r s :
  ws s <> Some OPEN ->
  request E r s = console_write cannot_send s.
Proof.
  intros Hws.
  assert (Hsend : forall msg, send E msg s = console_write cannot_send s).
  { intros msg. unfold send. destruct (ws s) as [[ | | | ] | ]; try reflexivity.
    contradiction Hws. reflexivity. }
  destruct r; cbn; unfold createRoom, joinRoom, leaveRoom, sendSignal; apply Hsend.
Qed.

(** X18. While the socket is missing or not open, nothing the application
    asks of the client reaches the server, and nothing is kept for later:
    after any series of [createRoom], [joinRoom], [leaveRoom],
    [sendSignal] and [send] no frame was handed to the socket, and each
    request left one warning on the console. *)
Theorem offline_requests_are_dropped (E : Env) (rs : list Request) (s : State) :
  ws s <> Some OPEN ->
  outbox (requests E rs s) = outbox s
  /\ console (requests E rs s) = console s ++ repeat cannot_send (length rs)
  /\ calls (requests E rs s) = calls s
  /\ ws (requests E rs s) = ws s.
Proof.
  revert s. induction rs as [ | r rest IH]; intros s Hws.
  - cbn. rewrite app_nil_r. repeat split.
  - cbn [requests fold_left]. fold (requests E rest (request E r s)).
    rewrite (request_offline E r s Hws).
    destruct (IH (console_write cannot_send s) Hws) as (Ho & Hc & Hcalls & Hw).
    rewrite Ho, Hc, Hcalls, Hw. cbn [console_write outbox console calls ws length repeat].
    rewrite <- app_assoc. repeat split.
Qed.

Lemma offline_requests_are_dropped_witness :
  outbox (requests Demo.env
            [r_createRoom (JStr "ann") (JStr "den") JUndefined; r_leaveRoom;
             r_sendSignal (JStr "bob") (JObj [("type"%string, JStr "offer")])]
            initial) = []
  /\ console (requests Demo.env
                [r_createRoom (JStr "ann") (JStr "den") JUndefined; r_leaveRoom;
                 r_sendSignal (JStr "bob") (JObj [("type"%string, JStr "offer")])]
                initial) = [cannot_send; cannot_send; cannot_send].
Proof.
  assert (Hws : ws initial <> Some OPEN) by discriminate.
  destruct (offline_requests_are_dropped Demo.env
              [r_createRoom (JStr "ann") (JStr "den") JUndefined; r_leaveRoom;
               r_sendSignal (JStr "bob") (JObj [("type"%string, JStr "offer")])]
              initial Hws) as (Ho & Hc & _).
  split; [exact Ho | exact Hc].
Defined.

End SignalingMessageFacts.
